(** * Bright-pixel segmentation module: model and properties

    A shallow embedding of the analytics module template:
    - [specification.py]  : the declarative [SPEC] structure;
    - [analytics/bright_pixel_segmentation.py] : [segment];
    - [module.py]         : [Detector.process], which brackets [segment]
      between two calls of the base class's [checktype].

    numpy arrays are records with a dtype, a shape and a flat row-major
    buffer; they live in a store of arrays, addressed by location, so that
    allocation, aliasing and in-place assignment are visible.  Numbers are
    rationals, [None] standing for NaN; where numpy computes in float64 the
    result is rounded to the nearest binary64 value. *)

From Stdlib Require Import ZArith QArith Qround Qpower Qabs Lqa Ascii String Lia.
From stdpp Require Import base option list strings gmap.

Local Open Scope string_scope.
Local Open Scope list_scope.
Local Open Scope nat_scope.

(** ** Errors and results *)

(** Element types of arrays. *)
Inductive dtype := uint8 | int64 | float64 | bool_.

Inductive numeric :=
  | NInt (z : Z)      (* a Python int *)
  | NFloat (q : Q).   (* a finite Python float, as the rational it denotes *)

(** What a value looked like when a contract check rejected it. *)
Inductive observed :=
  | ObsArray (dt : dtype) (shp : list nat)
  | ObsNumeric (n : numeric).

Inductive error :=
  | AxisError                       (* numpy: axis out of bounds *)
  | IndexError                      (* numpy: boolean index does not fit *)
  | InvalidReference                (* a location outside the store *)
  | UnknownMethod (method : string)
  | ArityMismatch (expected actual : nat)
  | TypeMismatch (param expected : string) (actual : observed).

Inductive result (A : Type) :=
  | Ok (a : A)
  | Err (e : error).
Arguments Ok {A} a.
Arguments Err {A} e.

#[global] Instance dtype_eq_dec : EqDecision dtype.
Proof. solve_decision. Defined.

(** ** numpy arrays *)

(** An array element: a finite number, or NaN. *)
Definition elem := option Q.

Record ndarray := {
  dtype_of : dtype;
  shape : list nat;
  data : list elem   (* row-major (C order) *)
}.

Definition product (shp : list nat) : nat := foldr Nat.mul 1 shp.

(** The buffer has one element per index. *)
Definition well_formed (a : ndarray) : Prop :=
  List.length (data a) = product (shape a).

(** [a[i][j][k]] of a three-dimensional array; NaN outside the buffer. *)
Definition at3 (a : ndarray) (i j k : nat) : elem :=
  match shape a with
  | [_; w; c] => mjoin (data a !! ((i * w + j) * c + k))
  | _ => None
  end.

(** [a[i][j]] of a two-dimensional array. *)
Definition at2 (a : ndarray) (i j : nat) : option elem :=
  match shape a with
  | [_; w] => data a !! (i * w + j)
  | _ => None
  end.

(** *** Arithmetic on elements *)

Definition add_elem (x y : elem) : elem :=
  match x, y with
  | Some p, Some q => Some (p + q)%Q
  | _, _ => None
  end.

(** The sum of the elements, without rounding. *)
Definition sum_elems (l : list elem) : elem := foldr add_elem (Some 0%Q) l.

(** *** IEEE 754 binary64 rounding *)

Module Float64.

Local Open Scope Q_scope.

(** The binary exponent of a positive rational: [floor (log2 q)]. *)
Definition ilog2 (q : Q) : Z :=
  let k := (Z.log2 (Qnum q) - Z.log2 (Zpos (Qden q)))%Z in
  if Qle_bool (2 ^ k) q then k else (k - 1)%Z.

(** The nearest integer, ties to the even one. *)
Definition rne (x : Q) : Z :=
  let f := Qfloor x in
  match Qcompare (x - inject_Z f) (1 # 2) with
  | Lt => f
  | Gt => (f + 1)%Z
  | Eq => if Z.even f then f else (f + 1)%Z
  end.

(** The exponent of the last place of the binary64 values next to [q]:
    53 significant bits, and no finer than [2^-1074] (subnormals). *)
Definition exponent (q : Q) : Z := Z.max (ilog2 (Qabs q) - 52) (-1074).

(** The nearest multiple of [2^e]. *)
Definition to_grid (e : Z) (q : Q) : Q := inject_Z (rne (q / 2 ^ e)) * 2 ^ e.

(** The binary64 value nearest to [q], ties to even, in lowest terms.
    Overflow to infinity is not modelled: an element is a finite number
    or NaN. *)
Definition round64 (q : Q) : Q :=
  let q := Qred q in
  match Qnum q with
  | Z0 => 0
  | _ => Qred (to_grid (exponent q) q)
  end.

(** Addition and division: the exact result, rounded. *)
Definition add (x y : Q) : Q := round64 (x + y).
Definition div (x y : Q) : Q := round64 (x / y).

End Float64.

(** The conversion of an element to float64. *)
Definition to_float64 (x : elem) : elem := Float64.round64 <$> x.

(** *** np.add.reduce in float64 *)

(** numpy adds the elements of a lane in the order of its pairwise
    summation.  The unrolled loop over whole groups of eight,
    [r[j] += a[i + j]] for [j < 8]; what is left of [l] is the rest that
    fills no group. *)
Fixpoint add_groups (r l : list Q) : list Q * list Q :=
  match l with
  | a0 :: a1 :: a2 :: a3 :: a4 :: a5 :: a6 :: a7 :: l' =>
      add_groups (zip_with Float64.add r [a0; a1; a2; a3; a4; a5; a6; a7]) l'
  | _ => (r, l)
  end.

(** A block of 8 to 128 elements: eight running sums, added in pairs, then
    the rest one element at a time. *)
Definition block_sum (l : list Q) : Q :=
  match add_groups (take 8 l) (drop 8 l) with
  | (r, rest) =>
      foldl Float64.add
        (match r with
         | [r0; r1; r2; r3; r4; r5; r6; r7] =>
             Float64.add
               (Float64.add (Float64.add r0 r1) (Float64.add r2 r3))
               (Float64.add (Float64.add r4 r5) (Float64.add r6 r7))
         | _ => 0%Q
         end) rest
  end.

(** Fewer than eight elements are added from left to right; a block is
    added as above; a longer lane is cut in two near the middle, at a
    multiple of eight.  The recursion ends within [length l] steps. *)
Fixpoint pairwise_sum (fuel : nat) (l : list Q) : Q :=
  let n := List.length l in
  if n <? 8 then foldl Float64.add 0%Q l
  else if n <=? 128 then block_sum l
  else
    match fuel with
    | O => block_sum l
    | S fuel =>
        let n2 := n / 2 - (n / 2) mod 8 in
        Float64.add (pairwise_sum fuel (take n2 l))
                    (pairwise_sum fuel (drop n2 l))
    end.

(** The sum of a lane: the pairwise sum added to the initial 0. *)
Definition add_reduce (l : list Q) : Q :=
  Float64.add 0%Q (pairwise_sum (List.length l) l).

(** [a.mean(axis)] on one lane: the elements are converted to float64, added
    by [add_reduce], and the sum is divided by the count in float64; a NaN
    element makes the mean NaN, and the mean of no element is NaN (0/0).
    A lane of 2^44 elements or more, which no array in memory has, is
    summed without rounding. *)
Definition mean_elems (l : list elem) : elem :=
  match List.length l with
  | O => None
  | S _ as n =>
      xs ← mapM to_float64 l;
      let s := if (Z.of_nat n <? 2 ^ 44)%Z then add_reduce xs
               else foldr Qplus 0%Q xs in
      Some (Float64.div s (inject_Z (Z.of_nat n)))
  end.

(** [x > t]; every comparison with NaN is false. *)
Definition elem_gt (x : elem) (t : Q) : bool :=
  match x with
  | Some q => negb (Qle_bool q t)
  | None => false
  end.

Definition of_bool (b : bool) : elem := Some (if b then 1%Q else 0%Q).

Definition truthy (x : elem) : bool :=
  match x with
  | Some q => negb (Qeq_bool q 0%Q)
  | None => true
  end.

Definition numeric_value (n : numeric) : Q :=
  match n with
  | NInt z => inject_Z z
  | NFloat q => q
  end.

(** *** The numpy operations [segment] uses *)

(** The elements [a[p, k, r]] for [k < c] of a buffer viewed as
    [(outer, c, inner)]: the lane that a reduction over the middle axis
    collapses. *)
Definition lane (buf : list elem) (c inner p r : nat) : list elem :=
  (fun k => mjoin (buf !! ((p * c + k) * inner + r))) <$> seq 0 c.

(** [a.mean(2)]: the mean over axis 2; an array of fewer than three
    dimensions has no such axis.  The mean of integer arrays is float64. *)
Definition mean_axis2 (a : ndarray) : result ndarray :=
  match shape a with
  | d0 :: d1 :: d2 :: rest =>
      let inner := product rest in
      Ok {| dtype_of := float64;
            shape := d0 :: d1 :: rest;
            data := p ← seq 0 (d0 * d1);
                    (fun r => mean_elems (lane (data a) d2 inner p r))
                      <$> seq 0 inner |}
  | _ => Err AxisError
  end.

(** [a > t] for a scalar [t]: a boolean array of the same shape. *)
Definition greater (a : ndarray) (t : Q) : ndarray :=
  {| dtype_of := bool_;
     shape := shape a;
     data := (fun x => of_bool (elem_gt x t)) <$> data a |}.

(** [np.zeros(shp, dtype=dt)]. *)
Definition zeros (shp : list nat) (dt : dtype) : ndarray :=
  {| dtype_of := dt; shape := shp; data := replicate (product shp) (Some 0%Q) |}.

(** [m[idx] = v] for a boolean array [idx] of the shape of [m] (numpy also
    takes an index of lower rank, which [segment] never builds): where the
    index is true the element becomes [v]; an index of another shape is an
    IndexError. *)
Definition setitem_mask (m idx : ndarray) (v : Q) : result ndarray :=
  if decide (shape idx = shape m) then
    Ok {| dtype_of := dtype_of m;
          shape := shape m;
          data := zip_with (fun b old => if truthy b then Some v else old)
                    (data idx) (data m) |}
  else Err IndexError.

Definition count {A} (f : A -> bool) (l : list A) : nat :=
  List.length (List.filter f l).

(** [int(np.sum(a))] for a boolean array: the number of true elements. *)
Definition sum_bool (a : ndarray) : Z := Z.of_nat (count truthy (data a)).

(** ** The store of arrays *)

Abbreviation loc := nat (only parsing).
Abbreviation heap := (list ndarray).

(** Computations over a state [S] that may raise.  The state reached when
    an exception is raised is kept: effects before the raise persist. *)
Definition M (S A : Type) : Type := S -> result A * S.

Definition ret {S A} (a : A) : M S A := fun s => (Ok a, s).
Definition raise {S A} (e : error) : M S A := fun s => (Err e, s).
Definition bind {S A B} (c : M S A) (k : A -> M S B) : M S B :=
  fun s => match c s with
           | (Ok a, s') => k a s'
           | (Err e, s') => (Err e, s')
           end.

Notation "'let!' x ':=' c 'in' k" := (bind c (fun x => k))
  (at level 10, x pattern, c at level 100, k at level 200).

(** Computations on the store of arrays. *)
Definition Heap (A : Type) : Type := M heap A.

Definition lift {S A} (r : result A) : M S A := fun s => (r, s).

(** Read the array at a location. *)
Definition load (l : loc) : Heap ndarray :=
  fun h => match h !! l with
           | Some a => (Ok a, h)
           | None => (Err InvalidReference, h)
           end.

(** Allocate a new array; its location is the next free one. *)
Definition new (a : ndarray) : Heap loc :=
  fun h => (Ok (List.length h), h ++ [a]).

(** Overwrite the array at a location. *)
Definition store (l : loc) (a : ndarray) : Heap unit :=
  fun h => match h !! l with
           | Some _ => (Ok tt, <[l := a]> h)
           | None => (Err InvalidReference, h)
           end.

(** ** bright_pixel_segmentation.segment *)

Definition segment (image : loc) (threshold : numeric) : Heap (loc * Z) :=
  let! img := load image in
  (* mean_img = image.mean(2) *)
  let! mean_val := lift (mean_axis2 img) in
  let! mean_img := new mean_val in
  (* is_bright = mean_img > threshold *)
  let! m := load mean_img in
  let! is_bright := new (greater m (numeric_value threshold)) in
  (* mask = np.zeros(image.shape[:2], dtype='uint8') *)
  let! mask := new (zeros (take 2 (shape img)) uint8) in
  (* mask[is_bright] = 255 *)
  let! mk := load mask in
  let! ib := load is_bright in
  let! mk' := lift (setitem_mask mk ib 255%Q) in
  let! _ := store mask mk' in
  (* return mask, int(np.sum(is_bright)) *)
  let! ib := load is_bright in
  ret (mask, sum_bool ib).

(** ** specification.SPEC *)

Record Category := {
  category_name : string;
  labels : option (list string)
}.

Record ParamSpec := {
  name : string;
  description : string;
  type_ : string;                 (* the compact type descriptor *)
  category : option Category
}.

(** A regression fixture: [image file, threshold, mask file, count]. *)
Record TestCase := {
  tc_image : string;
  tc_threshold : Z;
  tc_mask : string;
  tc_count : Z
}.

Record MethodSpec := {
  input : list ParamSpec;
  output : list ParamSpec;
  test_cases : list TestCase
}.

Record ModuleInfo := {
  author : string;
  author_email : string;
  module_description : string;
  module_name : string;
  url : string;
  version : string;
  dependencies : list string
}.

Record Specification := {
  methods : gmap string MethodSpec;
  module : ModuleInfo
}.

Definition process_spec : MethodSpec := {|
  input := [
    {| name := "image";
       description := "RGB image of shape (h,w,3)";
       type_ := "ndarray/uint8///3";
       category := None |};
    {| name := "threshold";
       description := "Threshold for bright pixels";
       type_ := "numeric/int";
       category := None |} ];
  output := [
    {| name := "mask";
       description := "Gray-scale segmentation mask of shape (h,w)";
       type_ := "ndarray/uint8//";
       category := Some {| category_name := "segmentation";
                           labels := Some ["background"; "bright pixels"] |} |};
    {| name := "#bright_pixels";
       description := "Number of bright pixels";
       type_ := "numeric/int";
       category := Some {| category_name := "measurement";
                           labels := None |} |} ];
  test_cases := [
    {| tc_image := "image.png"; tc_threshold := 130;
       tc_mask := "mask_130.png"; tc_count := 8865 |};
    {| tc_image := "image.png"; tc_threshold := 150;
       tc_mask := "mask_150.png"; tc_count := 3593 |};
    {| tc_image := "image.png"; tc_threshold := 0;
       tc_mask := "mask_0.png"; tc_count := 108204 |};
    {| tc_image := "image.png"; tc_threshold := 255;
       tc_mask := "mask_255.png"; tc_count := 0 |} ]
|}.

Definition SPEC : Specification := {|
  methods := {[ "process" := process_spec ]};
  module := {|
    author := "Stefan Maetschke";
    author_email := "stefan.maetschke@gmail.com";
    module_description := "Segments bright pixels.";
    module_name := "Bright Pixel Segmenter";
    url := "git@github.com:maet3608/analytics-module-template.git";
    version := "1.0.0";
    dependencies := ["mmacommon>=1.3.5"] |}
|}.

Inductive direction := Input | Output.

(** The parameter list of one direction of a method. *)
Definition params (m : MethodSpec) (d : direction) : list ParamSpec :=
  match d with
  | Input => input m
  | Output => output m
  end.

(** ** module.Detector *)

(** A runtime value handed to the contract check: a scalar, or an array
    object (what the check can see of it: dtype, shape, elements). *)
Inductive value :=
  | VNumeric (n : numeric)
  | VArray (a : ndarray).

(** The calls [process] makes, in the order it makes them. *)
Inductive call :=
  | CallChecktype (method : string) (d : direction) (args : list value)
  | CallSegment (image : loc) (threshold : numeric).

(** What a call of a [Detector] method can touch: the arrays, the
    specification the constructor stored in the instance
    ([Module.__init__(self, SPEC)]), and a record of the calls made. *)
Record world := {
  arrays : heap;
  self_spec : Specification;
  calls : list call
}.

Definition Detector_init (h : heap) : world :=
  {| arrays := h; self_spec := SPEC; calls := [] |}.

Definition log (c : call) : M world unit :=
  fun w => (Ok tt, {| arrays := arrays w; self_spec := self_spec w;
                      calls := calls w ++ [c] |}).

(** Run a store computation inside a method call. *)
Definition on_arrays {A} (c : Heap A) : M world A :=
  fun w => let (r, h) := c (arrays w) in
           (r, {| arrays := h; self_spec := self_spec w; calls := calls w |}).

Section Detector.

(** [Module.checktype] belongs to the base class of the [amodule]
    package, which is not part of this repository.  It is a check of the
    instance's specification against the values, without side effects. *)
Variable checktype :
  Specification -> string -> direction -> list value -> result unit.

(** [Module.checktype(self, method, direction, *args)]. *)
Definition Module_checktype (method : string) (d : direction)
    (args : list value) : M world unit :=
  let! _ := log (CallChecktype method d args) in
  fun w => (checktype (self_spec w) method d args, w).

Definition call_segment (image : loc) (threshold : numeric)
    : M world (loc * Z) :=
  let! _ := log (CallSegment image threshold) in
  on_arrays (segment image threshold).

(** [Detector.process(self, image, threshold)].  The arguments of
    [checktype] are the objects the references denote. *)
Definition process (image : loc) (threshold : numeric) : M world (loc * Z) :=
  let! img := on_arrays (load image) in
  let! _ := Module_checktype "process" Input
              [VArray img; VNumeric threshold] in
  let! (mask, n_bright) := call_segment image threshold in
  let! mk := on_arrays (load mask) in
  let! _ := Module_checktype "process" Output
              [VArray mk; VNumeric (NInt n_bright)] in
  ret (mask, n_bright).

End Detector.

(** ** The contract validator *)

Module Validator.

Inductive Kind := KNumeric | KNdarray.

(** Modelled from the spec: the structured type descriptor of the
    [amodule] base package.  A dimension constraint is a fixed size or
    unconstrained ([None]); so is the element type. *)
Record TypeDescriptor := {
  kind : Kind;
  element_type : option string;
  dimensions : list (option nat)
}.

(** The tokens of [s] between occurrences of [sep]. *)
Fixpoint split (sep : ascii) (s : string) : list string :=
  match s with
  | EmptyString => [EmptyString]
  | String c s' =>
      if Ascii.eqb c sep then EmptyString :: split sep s'
      else match split sep s' with
           | tok :: rest => String c tok :: rest
           | [] => [String c EmptyString]
           end
  end.

Definition digit (c : ascii) : option nat :=
  let n := nat_of_ascii c in
  if (48 <=? n) && (n <=? 57) then Some (n - 48) else None.

Fixpoint parse_digits (s : string) (acc : nat) : option nat :=
  match s with
  | EmptyString => Some acc
  | String c s' =>
      match digit c with
      | Some d => parse_digits s' (acc * 10 + d)
      | None => None
      end
  end.

(** A dimension token: empty is unconstrained, decimal digits a fixed
    size. *)
Definition parse_dimension (tok : string) : option (option nat) :=
  match tok with
  | EmptyString => Some None
  | _ => Some <$> parse_digits tok 0
  end.

Definition parse_kind (tok : string) : option Kind :=
  if String.eqb tok "numeric" then Some KNumeric
  else if String.eqb tok "ndarray" then Some KNdarray
  else None.

(** Modelled from the spec: the parser of the compact descriptor
    grammar, which lives in the [amodule] base package.  Slash-separated
    tokens: base kind, element type (empty = unconstrained), then one
    token per dimension constraint. *)
Definition parse_descriptor (s : string) : option TypeDescriptor :=
  match split "/" s with
  | k :: rest =>
      knd ← parse_kind k;
      dims ← mapM parse_dimension (tail rest);
      Some {| kind := knd;
              element_type :=
                match rest with
                | e :: _ => if String.eqb e "" then None else Some e
                | [] => None
                end;
              dimensions := dims |}
  | [] => None
  end.

Definition dtype_name (dt : dtype) : string :=
  match dt with
  | uint8 => "uint8"
  | int64 => "int64"
  | float64 => "float64"
  | bool_ => "bool"
  end.

Definition numeric_name (n : numeric) : string :=
  match n with
  | NInt _ => "int"
  | NFloat _ => "float"
  end.

Definition element_matches (constraint : option string) (actual : string)
    : bool :=
  match constraint with
  | None => true
  | Some e => String.eqb e actual
  end.

(** Modelled from the spec: the walk over the dimension constraints of
    the [amodule] base package.  Constraints and axes, both last first: a
    fixed constraint needs an axis of exactly that size, an unconstrained
    one is skipped. *)
Fixpoint trailing_match (rcs : list (option nat)) (rshp : list nat) : bool :=
  match rcs with
  | [] => true
  | None :: rcs' => trailing_match rcs' (tail rshp)
  | Some n :: rcs' =>
      match rshp with
      | d :: rshp' => (n =? d) && trailing_match rcs' rshp'
      | [] => false
      end
  end.

(** The constraint list aligned to the trailing axes of the shape. *)
Definition dims_match (cs : list (option nat)) (shp : list nat) : bool :=
  trailing_match (reverse cs) (reverse shp).

(** Modelled from the spec: the type-descriptor matching algorithm of
    [Module.checktype] (steps 2 and 3), which lives in the [amodule]
    base package. *)
Definition matches (td : TypeDescriptor) (v : value) : bool :=
  match kind td, v with
  | KNumeric, VNumeric n => element_matches (element_type td) (numeric_name n)
  | KNdarray, VArray a =>
      element_matches (element_type td) (dtype_name (dtype_of a))
      && dims_match (dimensions td) (shape a)
  | _, _ => false
  end.

Definition observe (v : value) : observed :=
  match v with
  | VNumeric n => ObsNumeric n
  | VArray a => ObsArray (dtype_of a) (shape a)
  end.

(** Modelled from the spec: the check of one value against one parameter
    in the [amodule] base package; a descriptor outside the grammar is
    satisfied by no value. *)
Definition check_param (p : ParamSpec) (v : value) : result unit :=
  match parse_descriptor (type_ p) with
  | Some td =>
      if matches td v then Ok tt
      else Err (TypeMismatch (name p) (type_ p) (observe v))
  | None => Err (TypeMismatch (name p) (type_ p) (observe v))
  end.

(** The values in order, stopping at the first mismatch. *)
Fixpoint check_params (ps : list ParamSpec) (vs : list value) : result unit :=
  match ps, vs with
  | p :: ps', v :: vs' =>
      match check_param p v with
      | Ok _ => check_params ps' vs'
      | Err e => Err e
      end
  | _, _ => Ok tt
  end.

(** Modelled from the spec: [validate(spec, method_name, direction,
    *values)], the contract check behind [Module.checktype], which lives
    in the [amodule] base package. *)
Definition validate (spec : Specification) (method : string)
    (d : direction) (values : list value) : result unit :=
  match methods spec !! method with
  | None => Err (UnknownMethod method)
  | Some m =>
      let ps := params m d in
      if List.length values =? List.length ps then check_params ps values
      else Err (ArityMismatch (List.length ps) (List.length values))
  end.

End Validator.

(** ** The vocabulary of the claims about [segment] *)

(** [image[i][j][:]]: the channel values of one pixel. *)
Definition pixel (a : ndarray) (i j : nat) : list elem :=
  match shape a with
  | [_; _; c] => at3 a i j <$> seq 0 c
  | _ => []
  end.

(** The channel mean of pixel [(i, j)] is strictly greater than [t]. *)
Definition is_bright_at (a : ndarray) (t : Q) (i j : nat) : bool :=
  elem_gt (mean_elems (pixel a i j)) t.

(** The mean in the words of the specification: the arithmetic mean of the
    channel values. *)
Definition exact_mean (l : list elem) : elem :=
  match List.length l with
  | O => None
  | S _ as n =>
      match sum_elems l with
      | Some s => Some (s / inject_Z (Z.of_nat n))%Q
      | None => None
      end
  end.


(** The arithmetic mean rounded to the nearest float64. *)
Definition rounded_mean (l : list elem) : elem :=
  Float64.round64 <$> exact_mean l.


(** The sum of a list of integers. *)
Definition zsum (l : list Z) : Z := foldr Z.add 0%Z l.

(** All index pairs of an [h] by [w] grid, row by row. *)
Definition positions (h w : nat) : list (nat * nat) :=
  i ← seq 0 h; (fun j => (i, j)) <$> seq 0 w.

Definition is_value (z : Z) (x : elem) : bool :=
  match x with
  | Some q => Qeq_bool q (inject_Z z)
  | None => false
  end.

(** An element an unsigned 8-bit array can hold. *)
Definition is_uint8 (x : elem) : Prop :=
  exists z : Z, (0 <= z <= 255)%Z /\ x = Some (inject_Z z).

(** What [segment] leaves in the store for a three-dimensional image. *)
Definition mean_of (img : ndarray) : ndarray :=
  match mean_axis2 img with
  | Ok m => m
  | Err _ => img
  end.

Definition mask_of (img : ndarray) (t : Q) : ndarray :=
  {| dtype_of := uint8;
     shape := take 2 (shape img);
     data := zip_with (fun b old => if truthy b then Some 255%Q else old)
               (data (greater (mean_of img) t))
               (data (zeros (take 2 (shape img)) uint8)) |}.

(** What the caller of [process] observes: the mask array and the count,
    or the exception. *)
Definition outcome (r : result (loc * Z)) (h : heap)
    : result (option ndarray * Z) :=
  match r with
  | Ok (m, n) => Ok (h !! m, n)
  | Err e => Err e
  end.

Definition with_calls (w : world) (h : heap) (cs : list call) : world :=
  {| arrays := h; self_spec := self_spec w; calls := calls w ++ cs |}.

(** A small image for concrete runs: one row of two RGB pixels, a dark one
    (mean 20) and a bright one (mean 235). *)
Definition example_image : ndarray :=
  {| dtype_of := uint8;
     shape := [1; 2; 3];
     data := (fun z => Some (inject_Z z)) <$> [10; 20; 30; 200; 250; 255]%Z |}.

Definition example_mask : ndarray :=
  {| dtype_of := uint8; shape := [1; 2]; data := [Some 0%Q; Some 255%Q] |}.

(** ** module.main_module *)

(** A positional argument of [main_module]: a string, or a list of strings
    such as [sys.argv]. *)
Inductive pyobj :=
  | PyStr (s : string)
  | PyList (l : list string).

Section Main.

Variable checktype :
  Specification -> string -> direction -> list value -> result unit.

(** [mmacommon.util.imageio.imagefile_to_ndarray], which reads and decodes
    an image file, and the path [resourcepath('testdata/image.png')] of
    the bundled test image; both come from other packages. *)
Variable imagefile_to_ndarray : pyobj -> result ndarray.
Variable testfile : string.

(** [filepath = argv[1] if len(argv) == 2 else testfile], where [argv] is
    the tuple of all positional arguments of [main_module]. *)
Definition main_filepath (argv : list pyobj) : pyobj :=
  match argv with
  | [_; path] => path
  | _ => PyStr testfile
  end.

(** [main_module], without its prints: a new [Detector] processes the
    image of the chosen file with threshold 130. *)
Definition main_module (argv : list pyobj) (h : heap)
    : result (loc * Z) * world :=
  (let! image_val := lift (imagefile_to_ndarray (main_filepath argv)) in
   let! image := on_arrays (new image_val) in
   process checktype image (NInt 130)) (Detector_init h).

(** The script entry: [main_module(sys.argv)]. *)
Definition script_main (sys_argv : list string) (h : heap)
    : result (loc * Z) * world :=
  main_module [PyList sys_argv] h.

End Main.

(** ** setup.py *)

(** Strings are ASCII text; the directory the commands run in is a list of
    named entries in the order [os.listdir] reports them, each a regular
    file or a directory with entries of its own. *)
Module Setup.

(** Prefix for analytics package. *)
Definition AMOD : string := "amod_".

(** *** Python string operations *)

Definition is_upper (c : ascii) : bool :=
  let n := nat_of_ascii c in (65 <=? n) && (n <=? 90).

Definition lower_char (c : ascii) : ascii :=
  if is_upper c then ascii_of_nat (nat_of_ascii c + 32) else c.

(** [s.lower()]. *)
Fixpoint lower (s : string) : string :=
  match s with
  | EmptyString => EmptyString
  | String c s' => String (lower_char c) (lower s')
  end.

(** The class [\s] of [re] on ASCII: tab, newline, vertical tab, form
    feed, carriage return, the four separators 28 to 31, and space. *)
Definition is_space (c : ascii) : bool :=
  let n := nat_of_ascii c in
  ((9 <=? n) && (n <=? 13)) || ((28 <=? n) && (n <=? 32)).

(** The class [[\s\-_]]. *)
Definition is_separator (c : ascii) : bool :=
  is_space c || Ascii.eqb c "-" || Ascii.eqb c "_".

(** [re.sub(r'[\s\-_]', '', s)]. *)
Fixpoint remove_separators (s : string) : string :=
  match s with
  | EmptyString => EmptyString
  | String c s' =>
      if is_separator c then remove_separators s'
      else String c (remove_separators s')
  end.

Fixpoint tail_from (acc p : string) : string :=
  match p with
  | EmptyString => acc
  | String c p' =>
      if Ascii.eqb c "/" then tail_from EmptyString p'
      else tail_from (acc ++ String c EmptyString)%string p'
  end.

(** [os.path.split(p)[1]] on POSIX: what follows the last slash. *)
Definition path_tail (p : string) : string := tail_from EmptyString p.

(** [s.replace(old, new)] for a non-empty [old], scanning from the left;
    [skip] characters of a match just replaced are still to be passed. *)
Fixpoint replace_from (old new : string) (skip : nat) (s : string) : string :=
  match s with
  | EmptyString => EmptyString
  | String c s' =>
      match skip with
      | S k => replace_from old new k s'
      | O =>
          if String.prefix old s
          then (new ++ replace_from old new (String.length old - 1) s')%string
          else String c (replace_from old new 0 s')
      end
  end.

(** With an empty [old], [new] goes before every character and at the
    end. *)
Fixpoint intersperse (new s : string) : string :=
  match s with
  | EmptyString => new
  | String c s' => (new ++ String c (intersperse new s'))%string
  end.

(** [s.replace(old, new)]. *)
Definition replace (old new s : string) : string :=
  match old with
  | EmptyString => intersperse new s
  | _ => replace_from old new 0 s
  end.

(** *** InitCommand *)

(** [InitCommand.normalize(self, name)]: remove spaces, dashes and
    underscores.  [cwd] is [os.getcwd()]; a missing or empty name is
    replaced by the name of the current folder. *)
Definition normalize (cwd : string) (name : option string) : string :=
  let name :=
    match name with
    | Some (String _ _ as s) => s
    | _ => path_tail cwd
    end in
  remove_separators (lower name).

(** The two replacements of [InitCommand.adjust_file]: the repository
    name, then the package name. *)
Definition adjust_text (cwd pkg_name text : string) : string :=
  let repo_name := path_tail cwd in
  let text := replace "analytics-module-template" repo_name text in
  replace (AMOD ++ "template")%string pkg_name text.

(** [new_pkg_name = AMOD + self.normalize(self.name)] in
    [InitCommand.run]. *)
Definition new_pkg_name (cwd : string) (name : option string) : string :=
  (AMOD ++ normalize cwd name)%string.

(** *** The current directory *)

#[warnings="-register-all"]
Inductive node :=
  | File
  | Dir (entries : list (string * node)).

Inductive exn :=
  | IndexError
  | NotADirectoryError
  | FileNotFoundError
  | IsADirectoryError
  | UnicodeDecodeError.

Inductive res (A : Type) :=
  | Returned (a : A)
  | Raised (e : exn).
Arguments Returned {A} a.
Arguments Raised {A} e.

(** The entry of a name, if there is one. *)
Fixpoint lookup_entry (name : string) (es : list (string * node))
    : option node :=
  match es with
  | [] => None
  | (n, x) :: es' => if decide (n = name) then Some x else lookup_entry name es'
  end.

(** [isfile(join(f, 'specification.py'))] for an entry [f] of the
    listing. *)
Definition has_specification (x : node) : bool :=
  match x with
  | Dir es =>
      match lookup_entry "specification.py" es with
      | Some File => true
      | _ => false
      end
  | File => false
  end.

(** [find_spec_folder()]: the first entry that contains
    'specification.py'; indexing the empty list raises. *)
Definition find_spec_folder (es : list (string * node)) : res string :=
  match List.filter (fun e => has_specification e.2) es with
  | (f, _) :: _ => Returned f
  | [] => Raised IndexError
  end.

(** *** CleanCommand *)

Record os_state := {
  entries : list (string * node);
  stdout : list string
}.

Definition Cmd (A : Type) : Type := os_state -> res A * os_state.

Definition cmd_bind {A B} (c : Cmd A) (k : A -> Cmd B) : Cmd B :=
  fun s => match c s with
           | (Returned a, s') => k a s'
           | (Raised e, s') => (Raised e, s')
           end.

(** [print(label, name)]: one line, the arguments joined by a space. *)
Definition print (label name : string) : Cmd unit :=
  fun s => (Returned tt,
            {| entries := entries s;
               stdout := stdout s ++ [(label ++ " " ++ name)%string] |}).

(** [os.path.exists(name)]. *)
Definition exists_ (name : string) (s : os_state) : bool :=
  match lookup_entry name (entries s) with
  | Some _ => true
  | None => false
  end.

Definition remove_entry (name : string) (es : list (string * node))
    : list (string * node) :=
  List.filter (fun e => negb (bool_decide (e.1 = name))) es.

(** [shutil.rmtree(name)]: a directory goes with all it contains; a
    regular file cannot be listed. *)
Definition rmtree (name : string) : Cmd unit :=
  fun s => match lookup_entry name (entries s) with
           | Some (Dir _) =>
               (Returned tt,
                {| entries := remove_entry name (entries s);
                   stdout := stdout s |})
           | Some File => (Raised NotADirectoryError, s)
           | None => (Raised FileNotFoundError, s)
           end.

Definition is_hidden (name : string) : bool :=
  match name with
  | String c _ => Ascii.eqb c "."
  | EmptyString => false
  end.

Fixpoint ends_with (suffix s : string) : bool :=
  if String.eqb s suffix then true
  else match s with
       | EmptyString => false
       | String _ s' => ends_with suffix s'
       end.

(** [glob.glob('*egg-info')]: the names of the listing that end in
    'egg-info'; a leading star does not match hidden names. *)
Definition glob_egg_info (s : os_state) : list string :=
  List.filter (fun n => negb (is_hidden n) && ends_with "egg-info" n)
    (fst <$> entries s).

Fixpoint for_each {A} (l : list A) (body : A -> Cmd unit) : Cmd unit :=
  match l with
  | [] => fun s => (Returned tt, s)
  | x :: l' => cmd_bind (body x) (fun _ => for_each l' body)
  end.

Definition delete (name : string) : Cmd unit :=
  cmd_bind (print "deleting:" name) (fun _ => rmtree name).

(** [CleanCommand.run(self)]: delete all distribution files. *)
Definition run_clean : Cmd unit :=
  cmd_bind
    (for_each ["build"; "dist"] (fun folder s =>
       if exists_ folder s then delete folder s else (Returned tt, s)))
    (fun _ s => for_each (glob_egg_info s) delete s).

(** *** InitCommand.adjust_file *)

(** What [filename] names: nothing, a directory, a regular file whose
    bytes are no text in the encoding of the locale, or a regular file
    with the text it holds (its bytes, for UTF-8). *)
Inductive path_state :=
  | Missing
  | Directory
  | Undecodable
  | Regular (content : string).

(** Reading in text mode ([open(filename, 'r').read()]) translates line
    ends: a carriage return, with the line feed that may follow it, is
    read as one line feed. *)
Fixpoint universal_newlines (s : string) : string :=
  match s with
  | EmptyString => EmptyString
  | String c s' =>
      if Ascii.eqb c "013" then
        match s' with
        | String d s'' =>
            if Ascii.eqb d "010"
            then String "010" (universal_newlines s'')
            else String "010" (universal_newlines s')
        | EmptyString => String "010" EmptyString
        end
      else String c (universal_newlines s')
  end.

(** [InitCommand.adjust_file(self, filename, pkg_name)]: read the file as
    text, replace the names, write the text back (on POSIX a line feed is
    written as it is).  Opening a missing file or a directory raises, and
    so does reading bytes that are no text; the file is then not
    written. *)
Definition adjust_file (cwd pkg_name : string) (file : path_state)
    : res unit * path_state :=
  match file with
  | Regular content =>
      (* text = open(filename, 'r').read() *)
      let text := universal_newlines content in
      (* the two text.replace calls, and f.write(text) *)
      (Returned tt, Regular (adjust_text cwd pkg_name text))
  | Undecodable => (Raised UnicodeDecodeError, Undecodable)
  | Directory => (Raised IsADirectoryError, Directory)
  | Missing => (Raised FileNotFoundError, Missing)
  end.

(** The names [run_clean] deletes. *)
Definition is_target (name : string) : bool :=
  bool_decide (name = "build") || bool_decide (name = "dist")
  || (negb (is_hidden name) && ends_with "egg-info" name).

End Setup.

(** * Properties *)

(** ** Rounding to binary64 *)

Section Float64Facts.
Import Float64.
Local Open Scope Q_scope.

Lemma rne_bounds (x : Q) :
  (Qfloor x <= rne x <= Qfloor x + 1)%Z.
Proof.
  unfold rne. destruct (Qcompare _ _); [destruct (Z.even _)| |]; lia.
Qed.

Lemma rne_mono (x y : Q) : x <= y -> (rne x <= rne y)%Z.
Proof.
  intros Hxy. pose proof (Qfloor_resp_le _ _ Hxy) as Hf.
  pose proof (rne_bounds x). pose proof (rne_bounds y).
  destruct (Z.eq_dec (Qfloor x) (Qfloor y)) as [Heq|Hne]; [|lia].
  unfold rne. rewrite <- Heq.
  destruct (Qcompare_spec (x - inject_Z (Qfloor x)) (1 # 2)) as [Hx|Hx|Hx];
  destruct (Qcompare_spec (y - inject_Z (Qfloor x)) (1 # 2)) as [Hy|Hy|Hy];
    try lia; try (destruct (Z.even _); lia); exfalso; lra.
Qed.

Lemma rne_Z (z : Z) : rne (inject_Z z) = z.
Proof.
  unfold rne. rewrite Qfloor_Z.
  destruct (Qcompare_spec (inject_Z z - inject_Z z) (1 # 2)) as [H|H|H];
    [exfalso; lra | reflexivity | exfalso; lra].
Qed.

Lemma rne_comp (x y : Q) : x == y -> rne x = rne y.
Proof.
  intros Hxy. unfold rne. rewrite (Qfloor_comp x y Hxy).
  assert (Hd : x - inject_Z (Qfloor y) == y - inject_Z (Qfloor y)).
  { unfold Qminus. apply Qplus_comp; [exact Hxy | reflexivity]. }
  by rewrite (Qcompare_comp _ _ Hd _ _ (Qeq_refl (1 # 2))).
Qed.

Lemma rne_nonneg (x : Q) : 0 <= x -> (0 <= rne x)%Z.
Proof. intros Hx. rewrite <- (rne_Z 0). by apply rne_mono. Qed.

Lemma rne_nonpos (x : Q) : x <= 0 -> (rne x <= 0)%Z.
Proof. intros Hx. rewrite <- (rne_Z 0). by apply rne_mono. Qed.

Lemma pow2_pos (k : Z) : 0 < 2 ^ k.
Proof. by apply Qpower_0_lt. Qed.

Lemma pow2_plus (a b : Z) : 2 ^ (a + b) == 2 ^ a * 2 ^ b.
Proof. by apply Qpower_plus. Qed.

Lemma pow2_mono (a b : Z) : (a <= b)%Z -> 2 ^ a <= 2 ^ b.
Proof. intros H. apply Qpower_le_compat_l; [done|]. lra. Qed.

Lemma pow2_Z (k : Z) : (0 <= k)%Z -> 2 ^ k == inject_Z (2 ^ k).
Proof. intros H. by rewrite (Zpower_Qpower 2 k H). Qed.

(** ilog2 *)
Lemma ilog2_spec (q : Q) : 0 < q -> 2 ^ ilog2 q <= q < 2 ^ (ilog2 q + 1).
Proof.
  intros Hq. destruct q as [n d]. unfold ilog2. cbn [Qnum Qden].
  assert (Hn : (0 < n)%Z) by (unfold Qlt in Hq; cbn in Hq; lia).
  set (a := Z.log2 n). set (b := Z.log2 (Zpos d)).
  destruct (Z.log2_spec n Hn) as [Ha1 Ha2]. fold a in Ha1, Ha2.
  destruct (Z.log2_spec (Zpos d) eq_refl) as [Hb1 Hb2]. fold b in Hb1, Hb2.
  assert (Ha0 : (0 <= a)%Z) by apply Z.log2_nonneg.
  assert (Hb0 : (0 <= b)%Z) by apply Z.log2_nonneg.
  assert (Hq' : n # d == inject_Z n / inject_Z (Zpos d)) by apply Qmake_Qdiv.
  assert (HA : 2 ^ a == inject_Z (2 ^ a)) by (by apply pow2_Z).
  assert (HB : 2 ^ b == inject_Z (2 ^ b)) by (by apply pow2_Z).
  assert (HA1 : 2 ^ (a + 1) == 2 * 2 ^ a) by (rewrite pow2_plus; ring).
  assert (Hlow : 2 ^ (a - b - 1) < n # d /\ n # d < 2 ^ (a - b + 1)).
  { assert (Hd : 0 < inject_Z (Zpos d)) by (rewrite <- (Zlt_Qlt 0); lia).
    assert (HBpos : 0 < inject_Z (2 ^ b)) by (rewrite <- (Zlt_Qlt 0); lia).
    assert (HB1pos : 0 < inject_Z (2 ^ (b + 1))) by (rewrite <- (Zlt_Qlt 0); lia).
    assert (Hpa : (2 ^ (a + 1) = 2 * 2 ^ a)%Z) by (rewrite Z.pow_add_r; lia).
    assert (Hpb : (2 ^ (b + 1) = 2 * 2 ^ b)%Z) by (rewrite Z.pow_add_r; lia).
    rewrite Hq'. split.
    - replace (a - b - 1)%Z with (a - (b + 1))%Z by lia.
      rewrite Qpower_minus by done. rewrite (pow2_Z a), (pow2_Z (b + 1)) by lia.
      apply Qlt_shift_div_l; [done|].
      unfold Qdiv. rewrite <- Qmult_assoc, (Qmult_comm (/ _)), Qmult_assoc.
      apply Qlt_shift_div_r; [done|].
      rewrite <- !inject_Z_mult, <- Zlt_Qlt. nia.
    - replace (a - b + 1)%Z with (a + 1 - b)%Z by lia.
      rewrite Qpower_minus by done. rewrite (pow2_Z (a + 1)), (pow2_Z b) by lia.
      apply Qlt_shift_div_r; [done|].
      unfold Qdiv. rewrite <- Qmult_assoc, (Qmult_comm (/ _)), Qmult_assoc.
      apply Qlt_shift_div_l; [done|].
      rewrite <- !inject_Z_mult, <- Zlt_Qlt. nia. }
  destruct (Qle_bool (2 ^ (a - b)) (n # d)) eqn:Hle.
  - apply Qle_bool_iff in Hle. split; [done | apply Hlow].
  - split.
    + apply Qlt_le_weak, Hlow.
    + replace (a - b - 1 + 1)%Z with (a - b)%Z by lia.
      apply Qnot_le_lt. intros H. apply Qle_bool_iff in H. congruence.
Qed.

Lemma ilog2_mono (p q : Q) : 0 < p -> p <= q -> (ilog2 p <= ilog2 q)%Z.
Proof.
  intros Hp Hpq. destruct (Z_le_gt_dec (ilog2 p) (ilog2 q)) as [|Hgt]; [done|].
  exfalso. destruct (ilog2_spec p Hp) as [Hp1 _].
  destruct (ilog2_spec q) as [_ Hq2]; [lra|].
  pose proof (pow2_mono (ilog2 q + 1) (ilog2 p) ltac:(lia)). lra.
Qed.

Lemma to_grid_mono (e : Z) (p q : Q) : p <= q -> to_grid e p <= to_grid e q.
Proof.
  intros Hpq. unfold to_grid. pose proof (pow2_pos e) as He.
  apply Qmult_le_compat_r; [|lra]. rewrite <- Zle_Qle. apply rne_mono.
  unfold Qdiv. apply Qmult_le_compat_r; [done|].
  apply Qlt_le_weak, Qinv_lt_0_compat, He.
Qed.

Lemma to_grid_fixed (e m : Z) :
  to_grid e (inject_Z m * 2 ^ e) == inject_Z m * 2 ^ e.
Proof.
  unfold to_grid. pose proof (pow2_pos e) as He.
  assert (Hq : inject_Z m * 2 ^ e / 2 ^ e == inject_Z m) by (field; lra).
  by rewrite (rne_comp _ _ Hq), rne_Z.
Qed.

Lemma to_grid_le (e m : Z) (q : Q) :
  q <= inject_Z m * 2 ^ e -> to_grid e q <= inject_Z m * 2 ^ e.
Proof. intros H. rewrite <- (to_grid_fixed e m). by apply to_grid_mono. Qed.

Lemma to_grid_ge (e m : Z) (q : Q) :
  inject_Z m * 2 ^ e <= q -> inject_Z m * 2 ^ e <= to_grid e q.
Proof. intros H. rewrite <- (to_grid_fixed e m). by apply to_grid_mono. Qed.

Lemma pow2_on_grid (e k : Z) : (e <= k)%Z -> 2 ^ k == inject_Z (2 ^ (k - e)) * 2 ^ e.
Proof.
  intros H. rewrite <- (pow2_Z (k - e)) by lia. rewrite <- pow2_plus.
  by replace (k - e + e)%Z with k by lia.
Qed.

Lemma neg_pow2_on_grid (e k : Z) :
  (e <= k)%Z -> - 2 ^ k == inject_Z (- 2 ^ (k - e)) * 2 ^ e.
Proof.
  intros H. rewrite inject_Z_opp, (pow2_on_grid e k H). ring.
Qed.

Lemma Qabs_of_pos (p : Q) : 0 < p -> Qabs p = p.
Proof.
  destruct p as [n d]. unfold Qlt, Qabs. cbn. intros H.
  f_equal. apply Z.abs_eq. lia.
Qed.

Lemma Qabs_of_neg (p : Q) : p < 0 -> Qabs p = - p.
Proof.
  destruct p as [n d]. unfold Qlt, Qabs, Qopp. cbn. intros H.
  f_equal. apply Z.abs_neq. lia.
Qed.

(** The core of [round64] away from zero. *)
Lemma grid_mono_pos (p q : Q) :
  0 < p -> p <= q ->
  to_grid (exponent p) p <= to_grid (exponent q) q.
Proof.
  intros Hp Hpq. assert (Hq : 0 < q) by lra.
  unfold exponent. rewrite (Qabs_of_pos p Hp), (Qabs_of_pos q Hq).
  pose proof (ilog2_mono p q Hp Hpq) as HL.
  set (L1 := ilog2 p) in *. set (L2 := ilog2 q) in *.
  set (e1 := Z.max (L1 - 52) (-1074)). set (e2 := Z.max (L2 - 52) (-1074)).
  destruct (Z.eq_dec e1 e2) as [<-|Hne]; [by apply to_grid_mono|].
  assert (He : (e1 < e2)%Z) by lia.
  set (k := Z.max (L1 + 1) e1).
  destruct (ilog2_spec p Hp) as [_ Hp2]. destruct (ilog2_spec q Hq) as [Hq1 _].
  fold L1 in Hp2. fold L2 in Hq1.
  apply Qle_trans with (2 ^ k).
  - rewrite (pow2_on_grid e1 k) by lia. apply to_grid_le.
    rewrite <- (pow2_on_grid e1 k) by lia.
    pose proof (pow2_mono (L1 + 1) k ltac:(lia)). lra.
  - apply Qle_trans with (2 ^ L2); [apply pow2_mono; lia|].
    rewrite (pow2_on_grid e2 L2) by lia. apply to_grid_ge.
    by rewrite <- (pow2_on_grid e2 L2) by lia.
Qed.

Lemma grid_mono_neg (p q : Q) :
  q < 0 -> p <= q ->
  to_grid (exponent p) p <= to_grid (exponent q) q.
Proof.
  intros Hq Hpq. assert (Hp : p < 0) by lra.
  unfold exponent. rewrite (Qabs_of_neg p Hp), (Qabs_of_neg q Hq).
  assert (Hq' : 0 < - q) by lra. assert (Hp' : 0 < - p) by lra.
  pose proof (ilog2_mono (- q) (- p) Hq' ltac:(lra)) as HL.
  set (L1 := ilog2 (- p)) in *. set (L2 := ilog2 (- q)) in *.
  set (e1 := Z.max (L1 - 52) (-1074)). set (e2 := Z.max (L2 - 52) (-1074)).
  destruct (Z.eq_dec e1 e2) as [<-|Hne]; [by apply to_grid_mono|].
  assert (He : (e2 < e1)%Z) by lia.
  set (k := Z.max (L2 + 1) e2).
  destruct (ilog2_spec (- p) Hp') as [Hp1 _].
  destruct (ilog2_spec (- q) Hq') as [_ Hq2].
  fold L1 in Hp1. fold L2 in Hq2.
  apply Qle_trans with (- 2 ^ L1).
  - rewrite (neg_pow2_on_grid e1 L1) by lia. apply to_grid_le.
    rewrite <- (neg_pow2_on_grid e1 L1) by lia. lra.
  - apply Qle_trans with (- 2 ^ k).
    + pose proof (pow2_mono k L1 ltac:(lia)). lra.
    + rewrite (neg_pow2_on_grid e2 k) by lia. apply to_grid_ge.
      rewrite <- (neg_pow2_on_grid e2 k) by lia.
      pose proof (pow2_mono (L2 + 1) k ltac:(lia)). lra.
Qed.

Lemma grid_nonneg (e : Z) (q : Q) : 0 <= q -> 0 <= to_grid e q.
Proof.
  intros H. assert (H0 : 0 == inject_Z 0 * 2 ^ e) by ring.
  rewrite H0. apply to_grid_ge. by rewrite <- H0.
Qed.

Lemma grid_nonpos (e : Z) (q : Q) : q <= 0 -> to_grid e q <= 0.
Proof.
  intros H. assert (H0 : 0 == inject_Z 0 * 2 ^ e) by ring.
  rewrite H0. apply to_grid_le. by rewrite <- H0.
Qed.

Lemma Qnum_Qred_0 (q : Q) : Qnum (Qred q) = 0%Z <-> q == 0.
Proof.
  rewrite <- (Qred_correct q) at 2. destruct (Qred q) as [n d].
  unfold Qeq. cbn. lia.
Qed.

Lemma round64_0 (q : Q) : q == 0 -> round64 q = 0.
Proof. intros H. unfold round64. apply Qnum_Qred_0 in H. by rewrite H. Qed.

Lemma round64_nonzero (q : Q) :
  ~ q == 0 -> round64 q == to_grid (exponent (Qred q)) (Qred q).
Proof.
  intros H. unfold round64. rewrite <- Qnum_Qred_0 in H.
  destruct (Qnum (Qred q)); [done| |]; apply Qred_correct.
Qed.

(** Rounding is monotone. *)
Lemma round64_mono (p q : Q) : p <= q -> round64 p <= round64 q.
Proof.
  intros Hpq.
  assert (Hp : Qred p == p) by apply Qred_correct.
  assert (Hq : Qred q == q) by apply Qred_correct.
  destruct (Qlt_le_dec 0 p) as [Hp0|Hp0].
  - rewrite !round64_nonzero by lra. apply grid_mono_pos; lra.
  - destruct (Qlt_le_dec q 0) as [Hq0|Hq0].
    + rewrite !round64_nonzero by lra. apply grid_mono_neg; lra.
    + apply Qle_trans with 0.
      * destruct (Qeq_dec p 0) as [Hz|Hnz]; [by rewrite (round64_0 p Hz)|].
        rewrite round64_nonzero by done. apply grid_nonpos. lra.
      * destruct (Qeq_dec q 0) as [Hz|Hnz]; [by rewrite (round64_0 q Hz)|].
        rewrite round64_nonzero by done. apply grid_nonneg. lra.
Qed.

(** Equal rationals round to the same value. *)
Lemma round64_comp (p q : Q) : p == q -> round64 p = round64 q.
Proof. intros H. unfold round64. by rewrite (Qred_complete p q H). Qed.

Lemma Qred_inject_Z (z : Z) : Qred (inject_Z z) = inject_Z z.
Proof.
  unfold Qred, inject_Z.
  pose proof (Z.ggcd_gcd z 1) as Hg. pose proof (Z.ggcd_correct_divisors z 1) as Hd.
  destruct (Z.ggcd z 1) as [g [aa bb]]. cbn in *. rewrite Z.gcd_1_r in Hg. subst g.
  destruct Hd as [Ha Hb]. rewrite !Z.mul_1_l in *. by subst.
Qed.

Lemma ilog2_lt (q : Q) (k : Z) : 0 < q -> q < 2 ^ k -> (ilog2 q < k)%Z.
Proof.
  intros Hq Hk. destruct (ilog2_spec q Hq) as [Hlo _].
  destruct (Z_lt_le_dec (ilog2 q) k) as [|Hge]; [done|].
  pose proof (pow2_mono _ _ Hge). lra.
Qed.

Lemma round64_Z (z : Z) : (0 <= z < 2 ^ 53)%Z -> round64 (inject_Z z) = inject_Z z.
Proof.
  intros Hz. destruct (Z.eq_dec z 0%Z) as [->|Hnz]; [done|].
  assert (Hpos : 0 < inject_Z z).
  { change 0 with (inject_Z 0). rewrite <- Zlt_Qlt. lia. }
  destruct z as [|p|p]; [done| |lia].
  unfold round64. rewrite !Qred_inject_Z. cbn [Qnum inject_Z].
  transitivity (Qred (inject_Z (Z.pos p))); [|apply Qred_inject_Z].
  apply Qred_complete.
  set (e := exponent (inject_Z (Z.pos p))).
  assert (He : (e <= 0)%Z).
  { unfold e, exponent. rewrite (Qabs_of_pos _ Hpos).
    assert (ilog2 (inject_Z (Z.pos p)) < 53)%Z; [|lia].
    apply ilog2_lt; [done|]. rewrite (pow2_Z 53) by lia. rewrite <- Zlt_Qlt. lia. }
  assert (Hm : inject_Z (Z.pos p) == inject_Z (Z.pos p * 2 ^ (- e)) * 2 ^ e).
  { rewrite inject_Z_mult, <- (pow2_Z (- e)) by lia.
    rewrite <- Qmult_assoc, <- pow2_plus. replace (- e + e)%Z with 0%Z by lia.
    change (2 ^ 0) with 1. ring. }
  etransitivity; [|symmetry; exact Hm].
  etransitivity; [|apply to_grid_fixed].
  unfold to_grid. 
  assert (Hd : inject_Z (Z.pos p) / 2 ^ e == inject_Z (Z.pos p * 2 ^ (- e)) * 2 ^ e / 2 ^ e).
  { unfold Qdiv. apply Qmult_comp; [exact Hm|reflexivity]. }
  by rewrite (rne_comp _ _ Hd).
Qed.

Lemma add_Z (a b : Z) :
  (0 <= a)%Z -> (0 <= b)%Z -> (a + b < 2 ^ 53)%Z ->
  add (inject_Z a) (inject_Z b) = inject_Z (a + b).
Proof.
  intros Ha Hb Hab. unfold add.
  rewrite (round64_comp _ (inject_Z (a + b))) by (by rewrite inject_Z_plus).
  apply round64_Z. lia.
Qed.

End Float64Facts.

(** ** Sums of integers in float64 *)

Section Sums.
Import Float64.

Lemma zsum_cons (x : Z) (l : list Z) : zsum (x :: l) = (x + zsum l)%Z.
Proof. done. Qed.

Lemma zsum_nil : zsum [] = 0%Z.
Proof. done. Qed.

Lemma zsum_app (l k : list Z) : zsum (l ++ k) = (zsum l + zsum k)%Z.
Proof.
  induction l as [|x l IH]; [done|].
  change ((x :: l) ++ k) with (x :: (l ++ k)). rewrite !zsum_cons. lia.
Qed.

Lemma zsum_nonneg (l : list Z) : Forall (Z.le 0) l -> (0 <= zsum l)%Z.
Proof. induction 1; rewrite ?zsum_cons, ?zsum_nil; lia. Qed.

Lemma foldl_add_Z (l : list Z) (acc : Z) :
  Forall (Z.le 0) l -> (0 <= acc)%Z -> (acc + zsum l < 2 ^ 53)%Z ->
  foldl add (inject_Z acc) (inject_Z <$> l) = inject_Z (acc + zsum l).
Proof.
  intros Hl. revert acc. induction Hl as [|x l Hx Hl IH]; intros acc Hacc Hb.
  - cbn. by rewrite Z.add_0_r.
  - rewrite zsum_cons in *. pose proof (zsum_nonneg l Hl).
    cbn [fmap list_fmap foldl]. rewrite add_Z by lia.
    rewrite IH by lia. f_equal. lia.
Qed.

Lemma add_groups_Z (l r : list Z) :
  Forall (Z.le 0) l -> Forall (Z.le 0) r -> List.length r = 8 ->
  (zsum r + zsum l < 2 ^ 53)%Z ->
  exists r' rest,
    add_groups (inject_Z <$> r) (inject_Z <$> l)
      = (inject_Z <$> r', inject_Z <$> rest) /\
    Forall (Z.le 0) r' /\ Forall (Z.le 0) rest /\ List.length r' = 8 /\
    (zsum r' + zsum rest = zsum r + zsum l)%Z.
Proof.
  revert r. induction l as [l IH] using (induction_ltof1 _ (@List.length Z)).
  unfold ltof in IH. intros r Hl Hr Hlen Hb.
  destruct l as [|a0 [|a1 [|a2 [|a3 [|a4 [|a5 [|a6 [|a7 l']]]]]]]];
    try (match goal with
         | |- context [add_groups _ (inject_Z <$> ?k)] => exists r, k
         end; by split_and!).
  destruct r as [|r0 [|r1 [|r2 [|r3 [|r4 [|r5 [|r6 [|r7 [|]]]]]]]]]; try done.
  repeat match goal with H : Forall _ (_ :: _) |- _ =>
    apply Forall_cons in H; destruct H as [? H] end.
  rewrite !zsum_cons, zsum_nil in Hb. pose proof (zsum_nonneg l' Hl) as Hl0.
  cbn [fmap list_fmap add_groups zip_with].
  rewrite !add_Z by lia.
  destruct (IH l' ltac:(cbn; lia)
              [r0 + a0; r1 + a1; r2 + a2; r3 + a3; r4 + a4; r5 + a5; r6 + a6; r7 + a7]%Z)
    as (r' & rest & Heq & Hr' & Hrest & Hlen' & Hsum); try done.
  - repeat (apply Forall_cons; split; [lia|]). constructor.
  - rewrite !zsum_cons, zsum_nil. lia.
  - exists r', rest. cbn [fmap list_fmap] in Heq. rewrite Heq.
    repeat split; try done. rewrite Hsum, !zsum_cons, zsum_nil. lia.
Qed.

Lemma zsum_take_drop (n : nat) (l : list Z) :
  (zsum (take n l) + zsum (drop n l) = zsum l)%Z.
Proof. by rewrite <- zsum_app, take_drop. Qed.

Lemma block_sum_Z (l : list Z) :
  Forall (Z.le 0) l -> 8 <= List.length l -> (zsum l < 2 ^ 53)%Z ->
  block_sum (inject_Z <$> l) = inject_Z (zsum l).
Proof.
  intros Hl Hlen Hb. unfold block_sum. rewrite <- fmap_take, <- fmap_drop.
  pose proof (zsum_take_drop 8 l) as Hsum.
  destruct (add_groups_Z (drop 8 l) (take 8 l)) as
    (r & rest & -> & Hr & Hrest & Hlen' & Hsum').
  - by apply Forall_drop.
  - by apply Forall_take.
  - rewrite length_take. lia.
  - lia.
  - destruct r as [|r0 [|r1 [|r2 [|r3 [|r4 [|r5 [|r6 [|r7 [|]]]]]]]]]; try done.
    repeat match goal with H : Forall _ (_ :: _) |- _ =>
      apply Forall_cons in H; destruct H as [? H] end.
    pose proof (zsum_nonneg rest Hrest) as Hrest0.
    rewrite !zsum_cons, zsum_nil in Hsum'.
    cbn [fmap list_fmap]. rewrite !add_Z by lia.
    rewrite foldl_add_Z; [f_equal; lia|done|lia|lia].
Qed.

Lemma pairwise_sum_Z (fuel : nat) (l : list Z) :
  Forall (Z.le 0) l -> (zsum l < 2 ^ 53)%Z ->
  pairwise_sum fuel (inject_Z <$> l) = inject_Z (zsum l).
Proof.
  revert l. induction fuel as [|fuel IH]; intros l Hl Hb.
  - cbn [pairwise_sum]. rewrite length_fmap.
    destruct (Nat.ltb_spec (List.length l) 8).
    { change 0%Q with (inject_Z 0). by rewrite foldl_add_Z. }
    destruct (List.length l <=? 128); by apply block_sum_Z.
  - cbn [pairwise_sum]. rewrite length_fmap.
    destruct (Nat.ltb_spec (List.length l) 8).
    { change 0%Q with (inject_Z 0). by rewrite foldl_add_Z. }
    destruct (List.length l <=? 128); [by apply block_sum_Z|].
    set (n2 := List.length l / 2 - (List.length l / 2) mod 8).
    pose proof (zsum_take_drop n2 l).
    assert (Ht : Forall (Z.le 0) (take n2 l)) by by apply Forall_take.
    assert (Hd : Forall (Z.le 0) (drop n2 l)) by by apply Forall_drop.
    pose proof (zsum_nonneg _ Ht). pose proof (zsum_nonneg _ Hd).
    rewrite <- fmap_take, <- fmap_drop.
    rewrite !IH by (done || lia).
    rewrite add_Z by lia. f_equal. lia.
Qed.

Lemma add_reduce_Z (l : list Z) :
  Forall (Z.le 0) l -> (zsum l < 2 ^ 53)%Z ->
  add_reduce (inject_Z <$> l) = inject_Z (zsum l).
Proof.
  intros Hl Hb. unfold add_reduce. rewrite pairwise_sum_Z by done.
  pose proof (zsum_nonneg l Hl). change 0%Q with (inject_Z 0).
  by rewrite add_Z by lia.
Qed.

(** The recursion of [pairwise_sum] ends within the length of the list:
    more fuel changes nothing. *)
Lemma pairwise_sum_fuel (f1 f2 : nat) (l : list Q) :
  List.length l <= f1 -> List.length l <= f2 ->
  pairwise_sum f1 l = pairwise_sum f2 l.
Proof.
  revert f2 l. induction f1 as [|f1 IH]; intros f2 l H1 H2.
  - destruct l; [|cbn in H1; lia]. by destruct f2.
  - destruct f2 as [|f2].
    { destruct l; [done|cbn in H2; lia]. }
    cbn [pairwise_sum].
    destruct (Nat.ltb_spec (List.length l) 8); [done|].
    destruct (Nat.leb_spec (List.length l) 128); [done|].
    set (n2 := List.length l / 2 - (List.length l / 2) mod 8).
    assert (Hn2 : 0 < n2 < List.length l).
    { unfold n2. pose proof (Nat.mod_upper_bound (List.length l / 2) 8).
      pose proof (Nat.div_mod_eq (List.length l) 2).
      pose proof (Nat.mod_upper_bound (List.length l) 2). lia. }
    f_equal; apply IH; rewrite ?length_take, ?length_drop; lia.
Qed.

End Sums.

(** ** Running the store monad *)

Lemma lookup_new (h : heap) (a : ndarray) : (h ++ [a]) !! List.length h = Some a.
Proof. by rewrite lookup_app_r, Nat.sub_diag. Qed.

Lemma truthy_of_bool b : truthy (of_bool b) = b.
Proof. by destruct b. Qed.

Lemma lookup_ext (h l : heap) k : (h ++ l) !! (List.length h + k) = l !! k.
Proof. rewrite lookup_app_r by lia. f_equal. lia. Qed.

(** The run of [segment] on an image with at least three axes. *)
Lemma segment_run image threshold (h : heap) img d0 d1 d2 rest :
  h !! image = Some img ->
  shape img = d0 :: d1 :: d2 :: rest ->
  let t := numeric_value threshold in
  let ib := greater (mean_of img) t in
  segment image threshold h =
    if decide (rest = []) then
      (Ok (List.length h + 2, sum_bool ib), h ++ [mean_of img; ib; mask_of img t])
    else
      (Err IndexError, h ++ [mean_of img; ib; zeros [d0; d1] uint8]).
Proof.
  intros Himg Hshape t ib.
  assert (Hmean : mean_axis2 img = Ok (mean_of img)).
  { unfold mean_of, mean_axis2. by rewrite Hshape. }
  assert (Hms : shape (mean_of img) = d0 :: d1 :: rest).
  { unfold mean_of, mean_axis2. by rewrite Hshape. }
  unfold segment, bind, load, lift, new, store, ret.
  rewrite Himg, Hmean, lookup_new.
  rewrite !length_app. simpl List.length.
  rewrite <- !app_assoc. simpl app.
  replace (List.length h + 1 + 1) with (List.length h + 2) by lia.
  repeat (rewrite lookup_ext; cbn [lookup list_lookup]).
  unfold setitem_mask. cbn [shape greater zeros dtype_of data].
  rewrite Hms, Hshape. cbn [take].
  destruct (decide (rest = [])) as [->|Hrest].
  - rewrite decide_True by done.
    repeat (rewrite lookup_ext; cbn [lookup list_lookup]).
    rewrite insert_app_r. cbn [insert list_insert].
    repeat (rewrite lookup_ext; cbn [lookup list_lookup]).
    unfold mask_of, zeros. rewrite Hshape. done.
  - rewrite decide_False; [done|]. intros [= ->]. done.
Qed.

(** Without an image at the location, or with an image of fewer than three
    axes, [segment] raises before it allocates anything. *)
Lemma segment_invalid image threshold (h : heap) :
  h !! image = None ->
  segment image threshold h = (Err InvalidReference, h).
Proof. intros H. unfold segment, bind, load. by rewrite H. Qed.

Lemma segment_axis_error image threshold (h : heap) img :
  h !! image = Some img ->
  List.length (shape img) < 3 ->
  segment image threshold h = (Err AxisError, h).
Proof.
  intros H Hlen. unfold segment, bind, load, lift, mean_axis2. rewrite H.
  destruct (shape img) as [|? [|? [|? ?]]]; simpl in *; done || lia.
Qed.

(** Every run of [segment] only appends to the store. *)
Lemma segment_extends image threshold (h : heap) :
  exists ext, (segment image threshold h).2 = h ++ ext.
Proof.
  destruct (h !! image) as [img|] eqn:Himg.
  - destruct (shape img) as [|d0 [|d1 [|d2 rest]]] eqn:Hshape.
    1-3: exists []; rewrite (segment_axis_error _ _ _ img), app_nil_r;
         [done | done | rewrite Hshape; simpl; lia].
    rewrite (segment_run _ _ _ _ _ _ _ _ Himg Hshape).
    destruct (decide (rest = [])); eauto.
  - exists []. by rewrite segment_invalid, app_nil_r.
Qed.

(** A run that returns was given a three-dimensional image. *)
Lemma segment_Ok_inv image threshold (h h' : heap) m n :
  segment image threshold h = (Ok (m, n), h') ->
  exists img hh ww cc,
    h !! image = Some img /\ shape img = [hh; ww; cc] /\
    m = List.length h + 2 /\
    n = sum_bool (greater (mean_of img) (numeric_value threshold)) /\
    h' = h ++ [mean_of img; greater (mean_of img) (numeric_value threshold);
               mask_of img (numeric_value threshold)].
Proof.
  intros Hrun.
  destruct (h !! image) as [img|] eqn:Himg.
  - destruct (shape img) as [|d0 [|d1 [|d2 rest]]] eqn:Hshape.
    1-3: rewrite (segment_axis_error _ _ _ img) in Hrun;
         [done | done | rewrite Hshape; simpl; lia].
    rewrite (segment_run _ _ _ _ _ _ _ _ Himg Hshape) in Hrun.
    destruct (decide (rest = [])) as [->|]; [|done].
    injection Hrun as <- <- <-. by exists img, d0, d1, d2.
  - by rewrite segment_invalid in Hrun.
Qed.

(** ** The arrays [segment] builds, element by element *)

Lemma bind_singleton {A B} (g : A -> nat -> B) (l : list A) :
  l ≫= (fun p => g p <$> seq 0 1) = (fun p => g p 0) <$> l.
Proof. induction l as [|x l IH]; [done|]. cbn. by f_equal. Qed.

Lemma lane_pixel img hh ww cc i j :
  shape img = [hh; ww; cc] ->
  lane (data img) cc 1 (i * ww + j) 0 = pixel img i j.
Proof.
  intros Hs. unfold lane, pixel, at3. rewrite Hs.
  apply list_fmap_ext. intros _ k _.
  by rewrite Nat.mul_1_r, Nat.add_0_r.
Qed.

Lemma mean_of_data img hh ww cc :
  shape img = [hh; ww; cc] ->
  data (mean_of img) =
    (fun p => mean_elems (lane (data img) cc 1 p 0)) <$> seq 0 (hh * ww).
Proof.
  intros Hs. unfold mean_of, mean_axis2. rewrite Hs. simpl.
  by rewrite (bind_singleton (fun p r => mean_elems (lane (data img) cc 1 p r))).
Qed.

Lemma mask_of_data img t hh ww cc :
  shape img = [hh; ww; cc] ->
  data (mask_of img t) =
    (fun p => if elem_gt (mean_elems (lane (data img) cc 1 p 0)) t
              then Some 255%Q else Some 0%Q) <$> seq 0 (hh * ww).
Proof.
  intros Hs. unfold mask_of, greater, zeros. cbn [data].
  rewrite (mean_of_data _ _ _ _ Hs), Hs. cbn [take product foldr].
  rewrite Nat.mul_1_r, <- list_fmap_compose, zip_with_fmap_l.
  rewrite zip_with_replicate_r_eq by (by rewrite length_seq).
  apply list_fmap_ext. intros _ p _. unfold flip, compose.
  by rewrite truthy_of_bool.
Qed.

(** ** Counting over the grid *)

Lemma count_fmap {A B} (f : B -> bool) (g : A -> B) (l : list A) :
  count f (g <$> l) = count (fun x => f (g x)) l.
Proof.
  unfold count. induction l as [|x l IH]; [done|].
  cbn. destruct (f (g x)); cbn; by rewrite IH.
Qed.

Lemma count_ext {A} (f g : A -> bool) (l : list A) :
  (forall x, x ∈ l -> f x = g x) -> count f l = count g l.
Proof.
  unfold count. induction l as [|x l IH]; intros Hfg; [done|].
  cbn. rewrite (Hfg x) by left.
  destruct (g x); cbn; rewrite IH; try done; intros y Hy; apply Hfg; by right.
Qed.

Lemma count_app {A} (f : A -> bool) (l k : list A) :
  count f (l ++ k) = count f l + count f k.
Proof. unfold count. by rewrite List.filter_app, length_app. Qed.

Lemma elem_of_positions h w i j :
  (i, j) ∈ positions h w <-> i < h /\ j < w.
Proof.
  unfold positions. rewrite list_elem_of_bind. split.
  - intros (i' & Hj & Hi). apply list_elem_of_fmap in Hj as (j' & [= -> ->] & Hj).
    apply elem_of_seq in Hi, Hj. lia.
  - intros [Hi Hj]. exists i. split.
    + apply list_elem_of_fmap. exists j. split; [done|]. apply elem_of_seq. lia.
    + apply elem_of_seq. lia.
Qed.

(** Row by row, the positions of the grid are the flat indices in order. *)
Lemma positions_flat h w :
  (fun ij => ij.1 * w + ij.2) <$> positions h w = seq 0 (h * w).
Proof.
  unfold positions. induction h as [|h IH]; [done|].
  rewrite seq_S, bind_app, fmap_app, IH. cbn [mbind list_bind].
  rewrite app_nil_r, <- list_fmap_compose.
  replace (S h * w) with (h * w + w) by lia.
  rewrite seq_app. f_equal. cbn [plus].
  replace (seq (h * w) w) with (seq (h * w + 0) w) by (f_equal; lia).
  rewrite <- (fmap_add_seq (h * w) 0 w). apply list_fmap_ext.
  intros _ j _. cbn. lia.
Qed.

Lemma is_bright_data img t hh ww cc :
  shape img = [hh; ww; cc] ->
  data (greater (mean_of img) t) =
    (fun ij => of_bool (is_bright_at img t ij.1 ij.2)) <$> positions hh ww.
Proof.
  intros Hs. unfold greater. cbn [data].
  rewrite (mean_of_data _ _ _ _ Hs), <- positions_flat, <- !list_fmap_compose.
  apply list_fmap_ext. intros _ [i j] _. unfold compose, is_bright_at. cbn [fst snd].
  by rewrite (lane_pixel _ _ _ _ _ _ Hs).
Qed.

Lemma sum_bool_count img t hh ww cc :
  shape img = [hh; ww; cc] ->
  sum_bool (greater (mean_of img) t) =
    Z.of_nat (count (fun ij => is_bright_at img t ij.1 ij.2) (positions hh ww)).
Proof.
  intros Hs. unfold sum_bool. rewrite (is_bright_data _ _ _ _ _ Hs), count_fmap.
  f_equal. apply count_ext. intros ij _. apply truthy_of_bool.
Qed.

Lemma mask_of_positions img t hh ww cc :
  shape img = [hh; ww; cc] ->
  data (mask_of img t) =
    (fun ij => if is_bright_at img t ij.1 ij.2 then Some 255%Q else Some 0%Q)
      <$> positions hh ww.
Proof.
  intros Hs.
  rewrite (mask_of_data _ _ _ _ _ Hs), <- positions_flat, <- list_fmap_compose.
  apply list_fmap_ext. intros _ [i j] _. unfold compose, is_bright_at. cbn [fst snd].
  by rewrite (lane_pixel _ _ _ _ _ _ Hs).
Qed.

Lemma mask_of_at2 img t hh ww cc i j :
  shape img = [hh; ww; cc] -> i < hh -> j < ww ->
  at2 (mask_of img t) i j =
    Some (if is_bright_at img t i j then Some 255%Q else Some 0%Q).
Proof.
  intros Hs Hi Hj. unfold at2. cbn [shape mask_of]. rewrite Hs. cbn [take].
  rewrite (mask_of_data _ _ _ _ _ Hs), list_lookup_fmap.
  rewrite lookup_seq_lt by nia. cbn. unfold is_bright_at.
  by rewrite (lane_pixel _ _ _ _ _ _ Hs).
Qed.


(** ** Means of unsigned 8-bit values *)

Lemma sum_elems_nan (l : list elem) : None ∈ l -> sum_elems l = None.
Proof.
  induction l as [|x l IH]; intros Hin; [by apply elem_of_nil in Hin|].
  change (sum_elems (x :: l)) with (add_elem x (sum_elems l)).
  apply elem_of_cons in Hin as [<-|Hin]; [done|].
  rewrite (IH Hin). by destruct x.
Qed.

Lemma mapM_to_float64_nan (l : list elem) :
  None ∈ l -> mapM to_float64 l = None.
Proof.
  intros Hin. apply mapM_None, Exists_exists. by exists None.
Qed.

(** A NaN among the elements makes the mean NaN. *)
Lemma mean_elems_nan (l : list elem) : None ∈ l -> mean_elems l = None.
Proof.
  intros Hin. unfold mean_elems. rewrite (mapM_to_float64_nan l Hin).
  by destruct (List.length l).
Qed.

Lemma exact_mean_nan (l : list elem) : None ∈ l -> exact_mean l = None.
Proof.
  intros Hin. unfold exact_mean. rewrite (sum_elems_nan l Hin).
  by destruct (List.length l).
Qed.

(** A lane of unsigned 8-bit values holds a NaN or is a list of integers. *)
Lemma uint8_lane (l : list elem) :
  Forall (fun x => x = None \/ is_uint8 x) l ->
  None ∈ l \/
  exists zs : list Z,
    l = (fun z => Some (inject_Z z)) <$> zs /\
    Forall (fun z => 0 <= z <= 255)%Z zs.
Proof.
  induction 1 as [|x l Hx _ IH]; [right; by exists []|].
  destruct Hx as [->|(z & Hz & ->)]; [left; apply elem_of_cons; by left|].
  destruct IH as [Hin|(zs & -> & Hzs)]; [left; apply elem_of_cons; by right|].
  right. exists (z :: zs). split; [done|]. by constructor.
Qed.

Lemma zsum_uint8 (zs : list Z) :
  Forall (fun z => 0 <= z <= 255)%Z zs ->
  Forall (Z.le 0) zs /\ (0 <= zsum zs <= 255 * Z.of_nat (List.length zs))%Z.
Proof.
  induction 1 as [|z zs Hz _ [IH1 IH2]]; [by split|].
  split; [constructor; [lia|done]|].
  rewrite zsum_cons. cbn [List.length]. lia.
Qed.

Lemma mapM_to_float64_Z (zs : list Z) :
  Forall (fun z => 0 <= z <= 255)%Z zs ->
  mapM to_float64 ((fun z => Some (inject_Z z)) <$> zs) = Some (inject_Z <$> zs).
Proof.
  intros Hzs. apply mapM_Some, Forall2_fmap_l, Forall2_fmap_r.
  apply Forall_Forall2_diag. eapply Forall_impl; [exact Hzs|].
  intros z Hz. cbn beta in Hz. cbn. f_equal. apply round64_Z.
  assert (2 ^ 53 = 9007199254740992)%Z by done. lia.
Qed.

Lemma sum_elems_Z (zs : list Z) :
  exists s, sum_elems ((fun z => Some (inject_Z z)) <$> zs) = Some s /\
            (s == inject_Z (zsum zs))%Q.
Proof.
  induction zs as [|z zs (s & Hs & Heq)]; [by exists 0%Q|].
  exists (inject_Z z + s)%Q. split.
  - change (add_elem (Some (inject_Z z))
              (sum_elems ((fun z => Some (inject_Z z)) <$> zs))
            = Some (inject_Z z + s)%Q). by rewrite Hs.
  - by rewrite zsum_cons, inject_Z_plus, Heq.
Qed.

Lemma foldr_Qplus_Z (zs : list Z) :
  (foldr Qplus 0 (inject_Z <$> zs) == inject_Z (zsum zs))%Q.
Proof.
  induction zs as [|z zs IH]; [done|].
  cbn [fmap list_fmap foldr]. by rewrite zsum_cons, inject_Z_plus, IH.
Qed.

(** On unsigned 8-bit values the float64 sum is exact, so the mean that
    numpy computes is the arithmetic mean, rounded once. *)
Lemma mean_elems_uint8 (l : list elem) :
  Forall (fun x => x = None \/ is_uint8 x) l ->
  mean_elems l = rounded_mean l.
Proof.
  intros Hl. destruct (uint8_lane l Hl) as [Hin|(zs & -> & Hzs)].
  { unfold rounded_mean. by rewrite (mean_elems_nan l Hin), (exact_mean_nan l Hin). }
  unfold rounded_mean, mean_elems, exact_mean.
  rewrite (mapM_to_float64_Z zs Hzs), length_fmap.
  destruct (sum_elems_Z zs) as (s & -> & Hs).
  destruct (zsum_uint8 zs Hzs) as [Hpos Hb].
  destruct (List.length zs) as [|n] eqn:Hlen; [done|].
  cbn [mbind option_bind fmap option_fmap option_map]. f_equal.
  unfold Float64.div. apply round64_comp.
  assert (Hsum : ((if (Z.of_nat (S n) <? 2 ^ 44)%Z
                   then add_reduce (inject_Z <$> zs)
                   else foldr Qplus 0 (inject_Z <$> zs)) == s)%Q).
  { rewrite Hs. destruct (Z.ltb_spec (Z.of_nat (S n)) (2 ^ 44)) as [Hn|Hn].
    - rewrite add_reduce_Z; [done|done|].
      assert (2 ^ 44 = 17592186044416)%Z by done.
      assert (2 ^ 53 = 9007199254740992)%Z by done. lia.
    - apply foldr_Qplus_Z. }
  unfold Qdiv. by rewrite Hsum.
Qed.

Lemma sum_elems_uint8_bound (l : list elem) :
  Forall (fun x => x = None \/ is_uint8 x) l ->
  forall s, sum_elems l = Some s ->
  (s <= 255 * inject_Z (Z.of_nat (List.length l)))%Q.
Proof.
  induction 1 as [|x l Hx _ IH]; intros s Hsum.
  - injection Hsum as <-. by vm_compute.
  - change (sum_elems (x :: l)) with (add_elem x (sum_elems l)) in Hsum.
    destruct x as [q|]; [|done].
    destruct (sum_elems l) as [s'|] eqn:Hs'; [|done].
    injection Hsum as <-. specialize (IH s' eq_refl).
    destruct Hx as [|(z & Hz & [= ->])]; [done|].
    cbn [List.length]. rewrite Nat2Z.inj_succ, <- Z.add_1_r, inject_Z_plus.
    assert (inject_Z z <= inject_Z 255)%Q by (rewrite <- Zle_Qle; lia).
    change (inject_Z 255) with 255%Q in *. change (inject_Z 1) with 1%Q. lra.
Qed.

(** The mean of unsigned 8-bit values does not exceed 255. *)
Lemma mean_elems_uint8_bound (l : list elem) :
  Forall (fun x => x = None \/ is_uint8 x) l ->
  forall t, (255 <= t)%Q -> elem_gt (mean_elems l) t = false.
Proof.
  intros Hl t Ht. rewrite (mean_elems_uint8 l Hl). unfold rounded_mean, exact_mean.
  destruct (List.length l) as [|n] eqn:Hlen; [done|].
  destruct (sum_elems l) as [s|] eqn:Hs; [|done].
  pose proof (sum_elems_uint8_bound l Hl s Hs) as Hb. rewrite Hlen in Hb.
  cbn [elem_gt fmap option_fmap option_map]. apply negb_false_iff, Qle_bool_iff.
  apply Qle_trans with 255%Q; [|done].
  change 255%Q with (Float64.round64 255). apply round64_mono.
  apply Qle_shift_div_r; [|done].
  change 0%Q with (inject_Z 0). rewrite <- Zlt_Qlt. lia.
Qed.

Lemma pixel_uint8 img i j :
  Forall is_uint8 (data img) ->
  Forall (fun x => x = None \/ is_uint8 x) (pixel img i j).
Proof.
  intros Hd. unfold pixel.
  destruct (shape img) as [|? [|? [|c [|? ?]]]] eqn:Hs; try by constructor.
  apply Forall_fmap, Forall_true. intros k. cbn. unfold at3. rewrite Hs.
  destruct (data img !! _) as [x|] eqn:Hx; cbn; [|by left].
  right. rewrite Forall_lookup in Hd. by eapply Hd.
Qed.


(** ** Claims about [segment] *)




(** C6. The two outputs of [segment] agree: the count is the number of
    mask entries equal to 255, which is the number of non-zero entries, and
    every mask entry is 0 or 255. *)
Theorem segment_outputs_consistent (h h' : heap) image threshold m n :
  segment image threshold h = (Ok (m, n), h') ->
  exists mask : ndarray,
    h' !! m = Some mask /\
    n = Z.of_nat (count (is_value 255) (data mask)) /\
    n = Z.of_nat (count (fun x => negb (is_value 0 x)) (data mask)) /\
    Forall (fun x => x = Some 0%Q \/ x = Some 255%Q) (data mask).
Proof.
  intros Hrun.
  apply segment_Ok_inv in Hrun as (img & hh & ww & cc & Himg & Hs & -> & -> & ->).
  exists (mask_of img (numeric_value threshold)).
  split. { by rewrite lookup_ext. }
  rewrite (sum_bool_count _ _ _ _ _ Hs), (mask_of_positions _ _ _ _ _ Hs).
  rewrite !count_fmap. repeat split.
  - f_equal. apply count_ext. intros ij _. by destruct (is_bright_at _ _ _ _).
  - f_equal. apply count_ext. intros ij _. by destruct (is_bright_at _ _ _ _).
  - apply Forall_fmap, Forall_true. intros ij. cbn.
    destruct (is_bright_at _ _ _ _); auto.
Qed.

(** C9. [segment] does not mutate its input: the image, like every array
    that was in the store before the call, is the same after it, and the
    mask returned is a new array, not one that was there before. *)
Theorem segment_does_not_mutate (h : heap) image threshold img :
  h !! image = Some img ->
  (segment image threshold h).2 !! image = Some img /\
  (forall l a, h !! l = Some a -> (segment image threshold h).2 !! l = Some a) /\
  (forall m n, (segment image threshold h).1 = Ok (m, n) ->
     h !! m = None /\ m <> image).
Proof.
  intros Himg.
  assert (Hframe : forall l a, h !! l = Some a ->
            (segment image threshold h).2 !! l = Some a).
  { intros l a Hl. destruct (segment_extends image threshold h) as [ext ->].
    by apply lookup_app_l_Some. }
  split; [by apply Hframe|]. split; [done|].
  intros m n Hres.
  destruct (segment image threshold h) as [r h'] eqn:Hrun. cbn in Hres. subst r.
  apply segment_Ok_inv in Hrun as (_ & _ & _ & _ & _ & _ & -> & _ & _).
  assert (Hnone : h !! (List.length h + 2) = None)
    by (apply lookup_ge_None; lia).
  split; [done|]. intros Heq. rewrite Heq in Hnone. congruence.
Qed.

Lemma count_none {A} (f : A -> bool) (l : list A) :
  (forall x, x ∈ l -> f x = false) -> count f l = 0.
Proof.
  intros Hf. rewrite (count_ext f (fun _ => false)) by done.
  unfold count. clear Hf. induction l as [|x l IH]; [done|]. exact IH.
Qed.

(** C10. On an image of unsigned 8-bit elements no pixel is bright for a
    threshold of 255 or more: the count is 0 and the mask is zero
    everywhere. *)
Theorem segment_uint8_saturated (h : heap) image threshold img hh ww cc :
  h !! image = Some img ->
  shape img = [hh; ww; cc] ->
  Forall is_uint8 (data img) ->
  (255 <= numeric_value threshold)%Q ->
  exists (m : loc) (h' : heap) (mask : ndarray),
    segment image threshold h = (Ok (m, 0%Z), h') /\
    h' !! m = Some mask /\
    List.length (data mask) = hh * ww /\
    Forall (fun x => x = Some 0%Q) (data mask).
Proof.
  intros Himg Hs Hu Ht.
  assert (Hdark : forall i j,
            is_bright_at img (numeric_value threshold) i j = false).
  { intros i j. apply mean_elems_uint8_bound; [by apply pixel_uint8 | done]. }
  eexists _, _, (mask_of img (numeric_value threshold)). split.
  { rewrite (segment_run _ _ _ _ _ _ _ _ Himg Hs), decide_True by done.
    rewrite (sum_bool_count _ _ _ _ _ Hs), count_none; [done|].
    intros ij _. apply Hdark. }
  split. { by rewrite lookup_ext. }
  split.
  { rewrite (mask_of_data _ _ _ _ _ Hs). by rewrite length_fmap, length_seq. }
  rewrite (mask_of_positions _ _ _ _ _ Hs).
  apply Forall_fmap, Forall_true. intros ij. cbn. by rewrite Hdark.
Qed.

(** ** Running [Detector.process] *)

Section Process.

Variable checktype :
  Specification -> string -> direction -> list value -> result unit.

(** The run of [process], call by call. *)
Lemma process_run (w : world) image threshold img :
  arrays w !! image = Some img ->
  process checktype image threshold w =
    let c1 := CallChecktype "process" Input [VArray img; VNumeric threshold] in
    let c2 := CallSegment image threshold in
    match checktype (self_spec w) "process" Input
            [VArray img; VNumeric threshold] with
    | Err e => (Err e, with_calls w (arrays w) [c1])
    | Ok _ =>
        match segment image threshold (arrays w) with
        | (Err e, h') => (Err e, with_calls w h' [c1; c2])
        | (Ok (mask, n), h') =>
            match h' !! mask with
            | None => (Err InvalidReference, with_calls w h' [c1; c2])
            | Some mk =>
                let c3 := CallChecktype "process" Output
                            [VArray mk; VNumeric (NInt n)] in
                match checktype (self_spec w) "process" Output
                        [VArray mk; VNumeric (NInt n)] with
                | Err e => (Err e, with_calls w h' [c1; c2; c3])
                | Ok _ => (Ok (mask, n), with_calls w h' [c1; c2; c3])
                end
            end
        end
    end.
Proof.
  intros Himg. destruct w as [h sp cs]. cbn [arrays self_spec calls] in *.
  unfold process, Module_checktype, call_segment, on_arrays, log, bind, load,
    ret, with_calls.
  cbn [arrays self_spec calls]. rewrite Himg. cbn [arrays self_spec calls].
  destruct (checktype _ _ Input _) as [[]|e]; [|done].
  destruct (segment image threshold h) as [[[mask n]|e] h'];
    cbn [arrays self_spec calls]; rewrite <- ?app_assoc; [|done].
  destruct (h' !! mask) as [mk|]; cbn [arrays self_spec calls]; [|done].
  destruct (checktype _ _ Output _) as [[]|e];
    by rewrite <- !app_assoc.
Qed.

Lemma process_invalid (w : world) image threshold :
  arrays w !! image = None ->
  process checktype image threshold w = (Err InvalidReference, w).
Proof.
  intros Himg. unfold process, on_arrays, bind, load. rewrite Himg.
  by destruct w.
Qed.

(** C2. When both validation calls succeed, [process] validates the
    inputs (method 'process', direction 'input'), then calls [segment]
    once, then validates the outputs (method 'process', direction
    'output'), and returns the pair (mask, n_bright) that [segment]
    produced.  The output validation is only reached when [segment]
    returned. *)
Theorem process_brackets_segment (w : world) image threshold img
    (mask : loc) (n : Z) (h' : heap) (mk : ndarray) :
  arrays w !! image = Some img ->
  checktype (self_spec w) "process" Input
    [VArray img; VNumeric threshold] = Ok tt ->
  segment image threshold (arrays w) = (Ok (mask, n), h') ->
  h' !! mask = Some mk ->
  checktype (self_spec w) "process" Output
    [VArray mk; VNumeric (NInt n)] = Ok tt ->
  process checktype image threshold w =
    (Ok (mask, n),
     {| arrays := h';
        self_spec := self_spec w;
        calls := calls w ++
          [CallChecktype "process" Input [VArray img; VNumeric threshold];
           CallSegment image threshold;
           CallChecktype "process" Output [VArray mk; VNumeric (NInt n)]] |}).
Proof.
  intros Himg Hin Hseg Hmk Hout.
  rewrite (process_run _ _ _ _ Himg). cbn zeta.
  by rewrite Hin, Hseg, Hmk, Hout.
Qed.

(** C3. When the input validation raises, the same error reaches the
    caller of [process]; [segment] is not called, nothing is allocated
    and no output value is produced. *)
Theorem process_input_rejected (w : world) image threshold img e :
  arrays w !! image = Some img ->
  checktype (self_spec w) "process" Input
    [VArray img; VNumeric threshold] = Err e ->
  process checktype image threshold w =
    (Err e,
     {| arrays := arrays w;
        self_spec := self_spec w;
        calls := calls w ++
          [CallChecktype "process" Input [VArray img; VNumeric threshold]] |}).
Proof.
  intros Himg Hin. rewrite (process_run _ _ _ _ Himg). cbn zeta.
  by rewrite Hin.
Qed.

(** [process] leaves the specification alone and only appends to the
    store. *)
Lemma process_frame (w : world) image threshold :
  self_spec (process checktype image threshold w).2 = self_spec w /\
  exists ext, arrays (process checktype image threshold w).2 = arrays w ++ ext.
Proof.
  destruct (arrays w !! image) as [img|] eqn:Himg.
  - rewrite (process_run _ _ _ _ Himg). cbn zeta.
    destruct (checktype _ _ Input _) as [[]|e].
    2: { split; [done|]. exists []. cbn. by rewrite app_nil_r. }
    destruct (segment_extends image threshold (arrays w)) as [ext Hext].
    destruct (segment image threshold (arrays w)) as [[[mask n]|e] h'];
      cbn in Hext; subst h'.
    2: { split; [done|]. by exists ext. }
    destruct ((arrays w ++ ext) !! mask) as [mk|].
    2: { split; [done|]. by exists ext. }
    destruct (checktype _ _ Output _) as [[]|e]; (split; [done|]); by exists ext.
  - rewrite (process_invalid _ _ _ Himg). split; [done|].
    exists []. by rewrite app_nil_r.
Qed.

(** The outcome of [process] depends on the specification and on the
    image array only, not on what else is in the store or in the record
    of calls. *)
Lemma process_stable (w w' : world) image threshold :
  self_spec w' = self_spec w ->
  arrays w' !! image = arrays w !! image ->
  outcome (process checktype image threshold w').1
          (arrays (process checktype image threshold w').2) =
  outcome (process checktype image threshold w).1
          (arrays (process checktype image threshold w).2).
Proof.
  intros Hspec Himg'.
  destruct (arrays w !! image) as [img|] eqn:Himg.
  2: { by rewrite !process_invalid. }
  rewrite (process_run w _ _ _ Himg), (process_run w' _ _ _ Himg'). cbn zeta.
  rewrite Hspec.
  destruct (checktype _ _ Input _) as [[]|e]; [|done].
  destruct (shape img) as [|d0 [|d1 [|d2 rest]]] eqn:Hs.
  1-3: rewrite !(segment_axis_error _ _ _ img);
       [done | done | rewrite Hs; cbn; lia | done | rewrite Hs; cbn; lia].
  rewrite (segment_run _ _ _ _ _ _ _ _ Himg Hs),
          (segment_run _ _ _ _ _ _ _ _ Himg' Hs).
  destruct (decide (rest = [])) as [->|]; [|done].
  rewrite !lookup_ext. cbn [lookup list_lookup].
  destruct (checktype _ _ Output _) as [[]|e]; [|done].
  cbn. by rewrite !lookup_ext.
Qed.

(** C7. Calling the validation, or [process], again with the same
    specification and the same values gives the same outcome -- the same
    mask and count, or the same error -- and no call changes the
    specification or any array that was in the store. *)
Theorem process_repeatable (w : world) image threshold method d args :
  let v1 := Module_checktype checktype method d args w in
  let v2 := Module_checktype checktype method d args v1.2 in
  let p1 := process checktype image threshold w in
  let p2 := process checktype image threshold p1.2 in
  (v2.1 = v1.1 /\
   self_spec v1.2 = self_spec w /\ arrays v1.2 = arrays w /\
   self_spec v2.2 = self_spec w /\ arrays v2.2 = arrays w) /\
  (outcome p2.1 (arrays p2.2) = outcome p1.1 (arrays p1.2) /\
   self_spec p1.2 = self_spec w /\ self_spec p2.2 = self_spec w /\
   forall l a, arrays w !! l = Some a ->
     arrays p1.2 !! l = Some a /\ arrays p2.2 !! l = Some a).
Proof.
  intros v1 v2 p1 p2. split.
  - subst v1 v2. unfold Module_checktype, log, bind. cbn.
    by destruct (checktype _ _ _ _).
  - subst p2.
    destruct (process_frame w image threshold) as [Hs1 [ext1 He1]].
    destruct (process_frame p1.2 image threshold) as [Hs2 [ext2 He2]].
    fold p1 in Hs1, He1.
    assert (Hkeep : forall l a, arrays w !! l = Some a ->
              arrays p1.2 !! l = Some a).
    { intros l a Hl. rewrite He1. by apply lookup_app_l_Some. }
    split; [|split; [done|split; [congruence|]]].
    + apply process_stable; [done|]. subst p1.
      destruct (arrays w !! image) as [img|] eqn:Himg.
      * by apply Hkeep.
      * by rewrite (process_invalid _ _ _ Himg).
    + intros l a Hl. split; [by apply Hkeep|].
      rewrite He2. apply lookup_app_l_Some. by apply Hkeep.
Qed.

End Process.

(** ** The contract validator *)

(** A dimension satisfies a constraint: a fixed size must be met exactly,
    an unconstrained one is met by every size. *)
Lemma trailing_match_aligned (rcs : list (option nat)) (rt rl : list nat) :
  List.length rt = List.length rcs ->
  Validator.trailing_match rcs (rt ++ rl) = true <->
  Forall2 (fun c d => forall n, c = Some n -> d = n) rcs rt.
Proof.
  revert rt. induction rcs as [|c rcs IH]; intros [|d rt] Hlen; try done.
  cbn in Hlen. injection Hlen as Hlen. specialize (IH rt Hlen).
  rewrite Forall2_cons. destruct c as [n|]; cbn.
  - rewrite andb_true_iff, Nat.eqb_eq, IH. split.
    + intros [-> H]. split; [by intros ? [= ->] | done].
    + intros [Hd H]. split; [by rewrite (Hd n) | done].
  - rewrite IH. split; [intros H; split; [done | done] | by intros [_ H]].
Qed.

Lemma dims_match_trailing (cs : list (option nat)) (lead tail : list nat) :
  List.length tail = List.length cs ->
  Validator.dims_match cs (lead ++ tail) = true <->
  Forall2 (fun c d => forall n, c = Some n -> d = n) cs tail.
Proof.
  intros Hlen. unfold Validator.dims_match.
  rewrite reverse_app, trailing_match_aligned
    by (by rewrite !length_reverse).
  split; intros H.
  - apply Forall2_reverse in H. by rewrite !reverse_involutive in H.
  - by apply Forall2_reverse.
Qed.

(** C4. An ndarray is checked by aligning the dimension constraints with
    the trailing axes of its shape: each fixed constraint must be met
    exactly, unconstrained ones are skipped, and the leading axes may be of
    any number and size.  Against "ndarray/uint8///3" a uint8 array of
    shape (100, 120, 3) is accepted and one of shape (100, 120, 4) raises
    TypeMismatch. *)
Theorem checktype_trailing_dimensions :
  (forall (td : Validator.TypeDescriptor) (a : ndarray) (lead tail : list nat),
     Validator.kind td = Validator.KNdarray ->
     shape a = lead ++ tail ->
     List.length tail = List.length (Validator.dimensions td) ->
     Validator.matches td (VArray a) = true <->
     Validator.element_matches (Validator.element_type td)
       (Validator.dtype_name (dtype_of a)) = true /\
     Forall2 (fun c d => forall n, c = Some n -> d = n)
       (Validator.dimensions td) tail) /\
  (forall (a : ndarray) (z : Z),
     dtype_of a = uint8 -> shape a = [100; 120; 3] ->
     Validator.validate SPEC "process" Input [VArray a; VNumeric (NInt z)]
       = Ok tt) /\
  (forall (a : ndarray) (z : Z),
     dtype_of a = uint8 -> shape a = [100; 120; 4] ->
     Validator.validate SPEC "process" Input [VArray a; VNumeric (NInt z)]
       = Err (TypeMismatch "image" "ndarray/uint8///3"
                (ObsArray uint8 [100; 120; 4]))).
Proof.
  split; [|split].
  - intros td a lead tail Hk Hs Hlen. unfold Validator.matches.
    rewrite Hk, Hs, andb_true_iff.
    by rewrite (dims_match_trailing _ _ _ Hlen).
  - intros a z Hd Hs. unfold Validator.validate.
    change (methods SPEC !! "process") with (Some process_spec).
    cbn [params input process_spec List.length Nat.eqb Validator.check_params].
    unfold Validator.check_param. cbn [type_ name].
    change (Validator.parse_descriptor "ndarray/uint8///3")
      with (Some {| Validator.kind := Validator.KNdarray;
                    Validator.element_type := Some "uint8";
                    Validator.dimensions := [None; None; Some 3] |}).
    unfold Validator.matches. cbn [Validator.kind Validator.element_type
      Validator.dimensions]. by rewrite Hd, Hs.
  - intros a z Hd Hs. unfold Validator.validate.
    change (methods SPEC !! "process") with (Some process_spec).
    cbn [params input process_spec List.length Nat.eqb Validator.check_params].
    unfold Validator.check_param. cbn [type_ name].
    change (Validator.parse_descriptor "ndarray/uint8///3")
      with (Some {| Validator.kind := Validator.KNdarray;
                    Validator.element_type := Some "uint8";
                    Validator.dimensions := [None; None; Some 3] |}).
    unfold Validator.matches, Validator.observe.
    cbn [Validator.kind Validator.element_type Validator.dimensions].
    by rewrite Hd, Hs.
Qed.

(** ** The specification *)

(** The regression fixtures of 'process' as (threshold, count) pairs.  They
    belong to the image file shipped as test data, which the sources do not
    contain. *)
Lemma SPEC_test_cases :
  (fun tc => (tc_image tc, tc_threshold tc, tc_count tc))
    <$> test_cases process_spec =
  [("image.png", 130%Z, 8865%Z); ("image.png", 150%Z, 3593%Z);
   ("image.png", 0%Z, 108204%Z); ("image.png", 255%Z, 0%Z)].
Proof. reflexivity. Qed.

(** C8. In [SPEC], the parameter names of each direction of each method
    are pairwise distinct; for 'process' they are image and threshold on
    input, mask and #bright_pixels on output. *)
Theorem SPEC_parameter_names_unique (method : string) (m : MethodSpec)
    (d : direction) :
  methods SPEC !! method = Some m ->
  NoDup (name <$> params m d) /\
  name <$> params m Input = ["image"; "threshold"] /\
  name <$> params m Output = ["mask"; "#bright_pixels"].
Proof.
  intros Hm. unfold SPEC in Hm. cbn [methods] in Hm.
  apply lookup_singleton_Some in Hm as [_ <-].
  split; [|done].
  destruct d; apply (bool_decide_unpack _); by vm_compute.
Qed.

(** ** Concrete runs *)

Example segment_example :
  segment 0 (NInt 130) [example_image] =
    (Ok (3, 1%Z),
     [example_image;
      {| dtype_of := float64; shape := [1; 2];
         data := [Some 20%Q; Some 235%Q] |};
      {| dtype_of := bool_; shape := [1; 2]; data := [Some 0%Q; Some 1%Q] |};
      example_mask]).
Proof. by vm_compute. Qed.

Example segment_two_axes :
  segment 0 (NInt 130) [example_mask] = (Err AxisError, [example_mask]).
Proof. reflexivity. Qed.

Example segment_four_axes :
  (segment 0 (NInt 130)
     [{| dtype_of := uint8; shape := [1; 1; 1; 1]; data := [Some 200%Q] |}]).1
  = Err IndexError.
Proof. reflexivity. Qed.

Example segment_no_channels :
  (segment 0 (NInt (-1))
     [{| dtype_of := uint8; shape := [1; 2; 0]; data := [] |}]).1
  = Ok (3, 0%Z).
Proof. reflexivity. Qed.

(** An int64 element above 2^53 is rounded when it is converted: the mean
    of the one channel 2^53 + 1 is 2^53, not greater than 2^53. *)
Example segment_int64_rounded :
  (segment 0 (NInt (2 ^ 53))
     [{| dtype_of := int64; shape := [1; 1; 1];
         data := [Some (inject_Z (2 ^ 53 + 1))] |}]).1 = Ok (3, 0%Z).
Proof. by vm_compute. Qed.

(** float64 addition is not associative: from left to right the channels
    2^53, 1, -2^53 add up to 0, and the channels -2^53, 1, 2^53 to 1. *)
Example segment_float64_order :
  (segment 0 (NInt 0)
     [{| dtype_of := float64; shape := [1; 1; 3];
         data := [Some (inject_Z (2 ^ 53)); Some 1%Q;
                  Some (inject_Z (- 2 ^ 53))] |}]).1 = Ok (3, 0%Z) /\
  (segment 0 (NInt 0)
     [{| dtype_of := float64; shape := [1; 1; 3];
         data := [Some (inject_Z (- 2 ^ 53)); Some 1%Q;
                  Some (inject_Z (2 ^ 53))] |}]).1 = Ok (3, 1%Z).
Proof. by vm_compute. Qed.

Lemma example_image_uint8 : Forall is_uint8 (data example_image).
Proof.
  apply Forall_fmap, Forall_forall. intros z Hz. exists z. split; [|done].
  cbn. set_unfold in Hz. lia.
Qed.


Lemma segment_outputs_consistent_witness :
  exists mask : ndarray,
    (segment 0 (NInt 130) [example_image]).2 !! 3 = Some mask /\
    1%Z = Z.of_nat (count (is_value 255) (data mask)) /\
    1%Z = Z.of_nat (count (fun x => negb (is_value 0 x)) (data mask)) /\
    Forall (fun x => x = Some 0%Q \/ x = Some 255%Q) (data mask).
Proof.
  exact (segment_outputs_consistent [example_image]
           (segment 0 (NInt 130) [example_image]).2 0 (NInt 130) 3 1 eq_refl).
Defined.

Lemma segment_does_not_mutate_witness :
  (segment 0 (NInt 130) [example_image]).2 !! 0 = Some example_image /\
  (forall l a, [example_image] !! l = Some a ->
     (segment 0 (NInt 130) [example_image]).2 !! l = Some a) /\
  (forall m n, (segment 0 (NInt 130) [example_image]).1 = Ok (m, n) ->
     [example_image] !! m = None /\ m <> 0).
Proof.
  exact (segment_does_not_mutate [example_image] 0 (NInt 130) example_image
           eq_refl).
Defined.

Lemma segment_uint8_saturated_witness :
  exists (m : loc) (h' : heap) (mask : ndarray),
    segment 0 (NInt 255) [example_image] = (Ok (m, 0%Z), h') /\
    h' !! m = Some mask /\
    List.length (data mask) = 1 * 2 /\
    Forall (fun x => x = Some 0%Q) (data mask).
Proof.
  apply (segment_uint8_saturated [example_image] 0 (NInt 255) example_image
           1 2 3 eq_refl eq_refl example_image_uint8).
  by vm_compute.
Defined.

Lemma process_brackets_segment_witness :
  process Validator.validate 0 (NInt 130) (Detector_init [example_image]) =
    (Ok (3, 1%Z),
     {| arrays := (segment 0 (NInt 130) [example_image]).2;
        self_spec := SPEC;
        calls :=
          [CallChecktype "process" Input
             [VArray example_image; VNumeric (NInt 130)];
           CallSegment 0 (NInt 130);
           CallChecktype "process" Output
             [VArray example_mask; VNumeric (NInt 1)]] |}).
Proof.
  exact (process_brackets_segment Validator.validate
           (Detector_init [example_image]) 0 (NInt 130) example_image
           3 1 (segment 0 (NInt 130) [example_image]).2 example_mask
           eq_refl eq_refl eq_refl eq_refl eq_refl).
Defined.

Lemma process_input_rejected_witness :
  process Validator.validate 0 (NFloat (261 # 2)) (Detector_init [example_image]) =
    (Err (TypeMismatch "threshold" "numeric/int"
            (ObsNumeric (NFloat (261 # 2)))),
     {| arrays := [example_image];
        self_spec := SPEC;
        calls :=
          [CallChecktype "process" Input
             [VArray example_image; VNumeric (NFloat (261 # 2))]] |}).
Proof.
  exact (process_input_rejected Validator.validate
           (Detector_init [example_image]) 0 (NFloat (261 # 2)) example_image
           _ eq_refl eq_refl).
Defined.

Lemma checktype_trailing_dimensions_witness :
  (Validator.matches
     {| Validator.kind := Validator.KNdarray;
        Validator.element_type := Some "uint8";
        Validator.dimensions := [None; Some 3] |}
     (VArray example_image) = true <->
   Validator.element_matches (Some "uint8") "uint8" = true /\
   Forall2 (fun c d => forall n, c = Some n -> d = n) [None; Some 3] [2; 3]) /\
  Validator.validate SPEC "process" Input
    [VArray (zeros [100; 120; 3] uint8); VNumeric (NInt 130)] = Ok tt /\
  Validator.validate SPEC "process" Input
    [VArray (zeros [100; 120; 4] uint8); VNumeric (NInt 130)] =
    Err (TypeMismatch "image" "ndarray/uint8///3" (ObsArray uint8 [100; 120; 4])).
Proof.
  destruct checktype_trailing_dimensions as (Hgen & Hok & Hbad).
  split; [|split].
  - exact (Hgen {| Validator.kind := Validator.KNdarray;
                   Validator.element_type := Some "uint8";
                   Validator.dimensions := [None; Some 3] |}
             example_image [1] [2; 3] eq_refl eq_refl eq_refl).
  - exact (Hok (zeros [100; 120; 3] uint8) 130%Z eq_refl eq_refl).
  - exact (Hbad (zeros [100; 120; 4] uint8) 130%Z eq_refl eq_refl).
Defined.

Lemma SPEC_parameter_names_unique_witness :
  NoDup (name <$> params process_spec Input) /\
  name <$> params process_spec Input = ["image"; "threshold"] /\
  name <$> params process_spec Output = ["mask"; "#bright_pixels"].
Proof.
  exact (SPEC_parameter_names_unique "process" process_spec Input eq_refl).
Defined.

(** * Further properties of [segment] *)

Lemma count_le_length {A} (f : A -> bool) (l : list A) :
  count f l <= List.length l.
Proof.
  unfold count. induction l as [|x l IH]; [done|].
  cbn. destruct (f x); cbn; lia.
Qed.

Lemma count_mono {A} (f g : A -> bool) (l : list A) :
  (forall x, x ∈ l -> f x = true -> g x = true) -> count f l <= count g l.
Proof.
  unfold count. induction l as [|x l IH]; intros Hfg; [done|].
  assert (IH' : List.length (List.filter f l) <= List.length (List.filter g l)).
  { apply IH. intros y Hy. apply Hfg. by right. }
  cbn. destruct (f x) eqn:Hf.
  - rewrite (Hfg x) by (done || left). cbn. lia.
  - destruct (g x); cbn; lia.
Qed.

Lemma count_negb {A} (f : A -> bool) (l : list A) :
  count f l + count (fun x => negb (f x)) l = List.length l.
Proof.
  unfold count. induction l as [|x l IH]; [done|].
  cbn. destruct (f x); cbn; lia.
Qed.

Lemma count_all {A} (l : list A) : count (fun _ => true) l = List.length l.
Proof. unfold count. induction l; [done|]. cbn. by f_equal. Qed.

Lemma length_positions h w : List.length (positions h w) = h * w.
Proof. by rewrite <- (length_fmap (fun ij => ij.1 * w + ij.2)),
         positions_flat, length_seq. Qed.

(** [segment] returns exactly on arrays of three axes. *)
Theorem segment_returns_iff_three_axes (h : heap) image threshold img :
  h !! image = Some img ->
  (exists m n h', segment image threshold h = (Ok (m, n), h')) <->
  List.length (shape img) = 3.
Proof.
  intros Himg. split.
  - intros (m & n & h' & Hrun).
    apply segment_Ok_inv in Hrun as (img' & hh & ww & cc & Himg' & Hs & _).
    rewrite Himg in Himg'. injection Himg' as <-. by rewrite Hs.
  - intros Hlen.
    destruct (shape img) as [|d0 [|d1 [|d2 [|? ?]]]] eqn:Hs; try done.
    rewrite (segment_run _ _ _ _ _ _ _ _ Himg Hs), decide_True by done. eauto.
Qed.

(** With fewer than three axes the mean over axis 2 raises AxisError and
    the store is untouched; with more than three the boolean index no
    longer fits the two-dimensional mask and the assignment raises
    IndexError. *)
Theorem segment_rank_errors (h : heap) image threshold img :
  h !! image = Some img ->
  (List.length (shape img) < 3 ->
     segment image threshold h = (Err AxisError, h)) /\
  (3 < List.length (shape img) ->
     (segment image threshold h).1 = Err IndexError).
Proof.
  intros Himg. split; intros Hlen.
  - by apply (segment_axis_error _ _ _ img).
  - destruct (shape img) as [|d0 [|d1 [|d2 [|d3 rest]]]] eqn:Hs;
      cbn in Hlen; try lia.
    by rewrite (segment_run _ _ _ _ _ _ _ _ Himg Hs), decide_False.
Qed.

Lemma elem_gt_mono (x : elem) (t1 t2 : Q) :
  (t1 <= t2)%Q -> elem_gt x t2 = true -> elem_gt x t1 = true.
Proof.
  intros Ht. destruct x as [q|]; [|done]. cbn.
  rewrite !negb_true_iff, <- !not_true_iff_false, !Qle_bool_iff.
  intros Hgt Hle. apply Hgt. by apply Qle_trans with t1.
Qed.

(** Raising the threshold never makes a pixel bright: a pixel that is 255
    in the mask of the higher threshold is 255 in the mask of the lower
    one, and the count does not grow. *)
Theorem segment_threshold_monotone (h : heap) image t1 t2 img hh ww cc :
  h !! image = Some img ->
  shape img = [hh; ww; cc] ->
  (numeric_value t1 <= numeric_value t2)%Q ->
  exists m1 n1 h1 mask1 m2 n2 h2 mask2,
    segment image t1 h = (Ok (m1, n1), h1) /\ h1 !! m1 = Some mask1 /\
    segment image t2 h = (Ok (m2, n2), h2) /\ h2 !! m2 = Some mask2 /\
    (n2 <= n1)%Z /\
    forall i j, i < hh -> j < ww ->
      at2 mask2 i j = Some (Some 255%Q) -> at2 mask1 i j = Some (Some 255%Q).
Proof.
  intros Himg Hs Ht.
  eexists _, _, _, (mask_of img (numeric_value t1)),
          _, _, _, (mask_of img (numeric_value t2)).
  split. { by rewrite (segment_run _ _ _ _ _ _ _ _ Himg Hs), decide_True. }
  split. { by rewrite lookup_ext. }
  split. { by rewrite (segment_run _ _ _ _ _ _ _ _ Himg Hs), decide_True. }
  split. { by rewrite lookup_ext. }
  split.
  - rewrite !(sum_bool_count _ _ _ _ _ Hs). apply inj_le, count_mono.
    intros ij _. by apply elem_gt_mono.
  - intros i j Hi Hj. rewrite !(mask_of_at2 _ _ _ _ _ _ _ Hs) by done.
    destruct (is_bright_at img (numeric_value t2) i j) eqn:Hb; [|done].
    intros _. unfold is_bright_at in *.
    by rewrite (elem_gt_mono _ _ _ Ht Hb).
Qed.

(** The count lies between 0 and the number of pixels, and together with
    the number of zero entries of the mask it makes up all pixels. *)
Theorem segment_count_bounds (h h' : heap) image threshold m n :
  segment image threshold h = (Ok (m, n), h') ->
  exists img hh ww cc mask,
    h !! image = Some img /\ shape img = [hh; ww; cc] /\
    h' !! m = Some mask /\
    (0 <= n <= Z.of_nat (hh * ww))%Z /\
    (n + Z.of_nat (count (is_value 0) (data mask)) = Z.of_nat (hh * ww))%Z.
Proof.
  intros Hrun.
  apply segment_Ok_inv in Hrun as (img & hh & ww & cc & Himg & Hs & -> & -> & ->).
  exists img, hh, ww, cc, (mask_of img (numeric_value threshold)).
  split; [done|]. split; [done|]. split. { by rewrite lookup_ext. }
  rewrite (sum_bool_count _ _ _ _ _ Hs), (mask_of_positions _ _ _ _ _ Hs).
  rewrite count_fmap, <- (length_positions hh ww).
  set (f := fun ij : nat * nat => is_bright_at img (numeric_value threshold) ij.1 ij.2).
  pose proof (count_le_length f (positions hh ww)).
  pose proof (count_negb f (positions hh ww)) as Hsum.
  rewrite (count_ext (fun x => is_value 0 (if is_bright_at img (numeric_value threshold) x.1 x.2
                                then Some 255%Q else Some 0%Q))
             (fun x => negb (f x))).
  2: { intros ij _. unfold f. by destruct (is_bright_at _ _ _ _). }
  lia.
Qed.

Lemma sum_elems_Some_nonneg (l : list elem) :
  Forall is_uint8 l -> exists s, sum_elems l = Some s /\ (0 <= s)%Q.
Proof.
  induction 1 as [|x l (z & Hz & ->) _ (s & Hs & Hpos)].
  - exists 0%Q. by split.
  - exists (inject_Z z + s)%Q. split.
    + change (sum_elems (Some (inject_Z z) :: l))
        with (add_elem (Some (inject_Z z)) (sum_elems l)). by rewrite Hs.
    + assert (inject_Z 0 <= inject_Z z)%Q by (rewrite <- Zle_Qle; lia).
      change (inject_Z 0) with 0%Q in *. lra.
Qed.

Lemma mean_elems_uint8_nonneg (l : list elem) :
  Forall is_uint8 l -> l <> [] ->
  forall t, (t < 0)%Q -> elem_gt (mean_elems l) t = true.
Proof.
  intros Hl Hne t Ht.
  rewrite mean_elems_uint8 by (eapply Forall_impl; [exact Hl|]; by right).
  unfold rounded_mean, exact_mean.
  destruct (List.length l) as [|n] eqn:Hlen.
  { by destruct l. }
  destruct (sum_elems_Some_nonneg l Hl) as (s & -> & Hs).
  cbn [elem_gt fmap option_fmap option_map].
  apply negb_true_iff, not_true_iff_false.
  rewrite Qle_bool_iff. intros Hle.
  assert (0 <= Float64.round64 (s / inject_Z (Z.of_nat (S n))))%Q; [|lra].
  change 0%Q with (Float64.round64 0) at 1. apply round64_mono.
  apply Qle_shift_div_l; [|lra].
  change 0%Q with (inject_Z 0). rewrite <- Zlt_Qlt. lia.
Qed.

(** In a well-formed array every channel of every pixel is an element of
    the buffer. *)
Lemma pixel_in_buffer img hh ww cc i j :
  shape img = [hh; ww; cc] -> well_formed img -> i < hh -> j < ww ->
  Forall (fun x => x ∈ data img) (pixel img i j) /\
  List.length (pixel img i j) = cc.
Proof.
  intros Hs Hwf Hi Hj. unfold well_formed in Hwf. rewrite Hs in Hwf.
  cbn in Hwf. unfold pixel. rewrite Hs. split.
  - apply Forall_fmap, Forall_forall. intros k Hk. apply elem_of_seq in Hk.
    unfold compose, at3. rewrite Hs.
    destruct (lookup_lt_is_Some_2 (data img) ((i * ww + j) * cc + k)) as [x Hx].
    { rewrite Hwf.
      assert (i * ww + j + 1 <= hh * ww) by nia.
      assert ((i * ww + j + 1) * cc <= hh * ww * cc)
        by (by apply Nat.mul_le_mono_r).
      lia. }
    unfold elem in *. rewrite Hx. cbn. by eapply list_elem_of_lookup_2.
  - by rewrite length_fmap, length_seq.
Qed.

(** On a well-formed image of unsigned 8-bit elements with at least one
    channel, every pixel is bright for a negative threshold: the count is
    the number of pixels and the mask is 255 everywhere. *)
Theorem segment_uint8_all_bright (h : heap) image threshold img hh ww cc :
  h !! image = Some img ->
  shape img = [hh; ww; cc] ->
  well_formed img ->
  Forall is_uint8 (data img) ->
  0 < cc ->
  (numeric_value threshold < 0)%Q ->
  exists (m : loc) (h' : heap) (mask : ndarray),
    segment image threshold h = (Ok (m, Z.of_nat (hh * ww)), h') /\
    h' !! m = Some mask /\
    List.length (data mask) = hh * ww /\
    Forall (fun x => x = Some 255%Q) (data mask).
Proof.
  intros Himg Hs Hwf Hu Hc Ht.
  assert (Hbright : forall ij, ij ∈ positions hh ww ->
            is_bright_at img (numeric_value threshold) ij.1 ij.2 = true).
  { intros [i j] Hij. apply elem_of_positions in Hij as [Hi Hj]. cbn.
    destruct (pixel_in_buffer _ _ _ _ _ _ Hs Hwf Hi Hj) as [Hin Hlen].
    apply mean_elems_uint8_nonneg; [| |done].
    - rewrite Forall_forall in Hu. eapply Forall_impl; [exact Hin|].
      intros x Hx. by apply Hu.
    - intros Hnil. rewrite Hnil in Hlen. cbn in Hlen. lia. }
  eexists _, _, (mask_of img (numeric_value threshold)). split.
  { rewrite (segment_run _ _ _ _ _ _ _ _ Himg Hs), decide_True by done.
    rewrite (sum_bool_count _ _ _ _ _ Hs).
    rewrite (count_ext _ (fun _ => true)) by done.
    by rewrite count_all, length_positions. }
  split. { by rewrite lookup_ext. }
  split.
  { rewrite (mask_of_data _ _ _ _ _ Hs). by rewrite length_fmap, length_seq. }
  rewrite (mask_of_positions _ _ _ _ _ Hs).
  apply Forall_fmap, Forall_forall. intros ij Hij. cbn. by rewrite Hbright.
Qed.

(** A pixel without channels, or with a NaN among its channels, has a NaN
    mean and is never bright: its mask entry is 0 at every threshold. *)
Theorem segment_nan_pixel_dark (h : heap) image threshold img hh ww cc i j :
  h !! image = Some img ->
  shape img = [hh; ww; cc] ->
  i < hh -> j < ww ->
  cc = 0 \/ None ∈ pixel img i j ->
  exists (m : loc) (n : Z) (h' : heap) (mask : ndarray),
    segment image threshold h = (Ok (m, n), h') /\
    h' !! m = Some mask /\
    at2 mask i j = Some (Some 0%Q).
Proof.
  intros Himg Hs Hi Hj Hnan.
  eexists _, _, _, (mask_of img (numeric_value threshold)). split.
  { by rewrite (segment_run _ _ _ _ _ _ _ _ Himg Hs), decide_True. }
  split. { by rewrite lookup_ext. }
  rewrite (mask_of_at2 _ _ _ _ _ _ _ Hs) by done.
  unfold is_bright_at.
  destruct Hnan as [->|Hnan].
  - unfold pixel. by rewrite Hs.
  - by rewrite (mean_elems_nan _ Hnan).
Qed.

(** The sum of a list of elements does not depend on their order, up to
    equality of rationals. *)
Lemma sum_elems_Permutation (l k : list elem) :
  l ≡ₚ k -> option_Forall2 Qeq (sum_elems l) (sum_elems k).
Proof.
  induction 1 as [|x l k _ IH|x y l|l k k' _ IH1 _ IH2].
  - by constructor.
  - change (option_Forall2 Qeq (add_elem x (sum_elems l))
                               (add_elem x (sum_elems k))).
    destruct IH as [a b Hab|]; destruct x as [q|]; constructor.
    by rewrite Hab.
  - change (option_Forall2 Qeq (add_elem y (add_elem x (sum_elems l)))
                               (add_elem x (add_elem y (sum_elems l)))).
    destruct x, y, (sum_elems l); constructor. ring.
  - destruct IH1 as [a b Hab|]; inversion IH2 as [b' c Hbc|]; subst;
      constructor. by rewrite Hab.
Qed.

(** On unsigned 8-bit values the float64 mean does not depend on the
    order either: the sum is exact and is rounded once, after the
    division. *)
Lemma mean_elems_Permutation (l k : list elem) :
  Forall (fun x => x = None \/ is_uint8 x) l ->
  l ≡ₚ k -> mean_elems l = mean_elems k.
Proof.
  intros Hl Hp.
  assert (Hk : Forall (fun x => x = None \/ is_uint8 x) k)
    by (by rewrite <- Hp).
  rewrite (mean_elems_uint8 l Hl), (mean_elems_uint8 k Hk).
  unfold rounded_mean, exact_mean. rewrite <- (Permutation_length Hp).
  destruct (List.length l) as [|n]; [done|].
  destruct (sum_elems_Permutation l k Hp) as [a b Hab|]; [|done].
  cbn [fmap option_fmap option_map]. f_equal. apply round64_comp.
  unfold Qdiv. by rewrite Hab.
Qed.

(** On an image of unsigned 8-bit elements the order of the channels does
    not matter: an image of the same shape whose pixels hold the same
    channel values in any order -- RGB and BGR, say -- gets the same mask
    and the same count.  (On float64 images the order can matter: float64
    addition is not associative.) *)
Theorem segment_channel_order (h : heap) a b threshold img img' hh ww cc :
  h !! a = Some img -> h !! b = Some img' ->
  shape img = [hh; ww; cc] -> shape img' = [hh; ww; cc] ->
  Forall is_uint8 (data img) ->
  (forall i j, i < hh -> j < ww -> pixel img i j ≡ₚ pixel img' i j) ->
  exists (m m' : loc) (n : Z) (h1 h2 : heap) (mask : ndarray),
    segment a threshold h = (Ok (m, n), h1) /\ h1 !! m = Some mask /\
    segment b threshold h = (Ok (m', n), h2) /\ h2 !! m' = Some mask.
Proof.
  intros Ha Hb Hs Hs' Hu Hperm.
  assert (Hsame : forall ij, ij ∈ positions hh ww ->
            is_bright_at img (numeric_value threshold) ij.1 ij.2 =
            is_bright_at img' (numeric_value threshold) ij.1 ij.2).
  { intros [i j] Hij. apply elem_of_positions in Hij as [Hi Hj].
    unfold is_bright_at. cbn [fst snd].
    by rewrite (mean_elems_Permutation _ _ (pixel_uint8 img i j Hu)
                  (Hperm i j Hi Hj)). }
  assert (Hmask : mask_of img' (numeric_value threshold) =
                  mask_of img (numeric_value threshold)).
  { pose proof (mask_of_positions img (numeric_value threshold) _ _ _ Hs) as Hd.
    pose proof (mask_of_positions img' (numeric_value threshold) _ _ _ Hs') as Hd'.
    unfold mask_of in *. cbn [data] in Hd, Hd'. rewrite Hd, Hd', Hs, Hs'.
    f_equal. apply list_fmap_ext. intros k ij Hij.
    by rewrite (Hsame ij) by (by eapply list_elem_of_lookup_2). }
  eexists _, _, _, _, _, (mask_of img (numeric_value threshold)).
  split. { by rewrite (segment_run _ _ _ _ _ _ _ _ Ha Hs), decide_True. }
  split. { by rewrite lookup_ext. }
  split.
  { rewrite (segment_run _ _ _ _ _ _ _ _ Hb Hs'), decide_True by done.
    rewrite (sum_bool_count _ _ _ _ _ Hs'), (sum_bool_count _ _ _ _ _ Hs).
    rewrite <- (count_ext _ _ _ Hsame). done. }
  rewrite lookup_ext. cbn. by rewrite Hmask.
Qed.

(** * Further properties of [Detector.process] and [main_module] *)

Section ProcessErrors.

Variable checktype :
  Specification -> string -> direction -> list value -> result unit.

(** An exception of [segment] reaches the caller of [process] as it is;
    the outputs are not validated, and what [segment] allocated before it
    raised stays in the store. *)
Theorem process_segment_error (w : world) image threshold img e (h' : heap) :
  arrays w !! image = Some img ->
  checktype (self_spec w) "process" Input
    [VArray img; VNumeric threshold] = Ok tt ->
  segment image threshold (arrays w) = (Err e, h') ->
  process checktype image threshold w =
    (Err e,
     {| arrays := h';
        self_spec := self_spec w;
        calls := calls w ++
          [CallChecktype "process" Input [VArray img; VNumeric threshold];
           CallSegment image threshold] |}).
Proof.
  intros Himg Hin Hseg. rewrite (process_run _ _ _ _ _ Himg). cbn zeta.
  by rewrite Hin, Hseg.
Qed.

(** When the output validation raises, [process] raises the same error
    and returns nothing, although [segment] has run: the mask it built is
    in the store. *)
Theorem process_output_rejected (w : world) image threshold img hh ww cc e :
  arrays w !! image = Some img ->
  shape img = [hh; ww; cc] ->
  let t := numeric_value threshold in
  let n := sum_bool (greater (mean_of img) t) in
  checktype (self_spec w) "process" Input
    [VArray img; VNumeric threshold] = Ok tt ->
  checktype (self_spec w) "process" Output
    [VArray (mask_of img t); VNumeric (NInt n)] = Err e ->
  exists w',
    process checktype image threshold w = (Err e, w') /\
    arrays w' !! (List.length (arrays w) + 2) = Some (mask_of img t) /\
    calls w' = calls w ++
      [CallChecktype "process" Input [VArray img; VNumeric threshold];
       CallSegment image threshold;
       CallChecktype "process" Output
         [VArray (mask_of img t); VNumeric (NInt n)]].
Proof.
  intros Himg Hs t n Hin Hout. rewrite (process_run _ _ _ _ _ Himg). cbn zeta.
  rewrite Hin, (segment_run _ _ _ _ _ _ _ _ Himg Hs), decide_True by done.
  rewrite lookup_ext. cbn [lookup list_lookup]. fold t n. rewrite Hout.
  eexists. split; [done|]. split; [|done]. cbn. by rewrite lookup_ext.
Qed.

(** [process] returns a value exactly when the input validation passes,
    the image has three axes, and the output validation passes on the mask
    and count that [segment] computes. *)
Theorem process_returns_iff (w : world) image threshold img :
  arrays w !! image = Some img ->
  let t := numeric_value threshold in
  (exists r w', process checktype image threshold w = (Ok r, w')) <->
  checktype (self_spec w) "process" Input
    [VArray img; VNumeric threshold] = Ok tt /\
  List.length (shape img) = 3 /\
  checktype (self_spec w) "process" Output
    [VArray (mask_of img t);
     VNumeric (NInt (sum_bool (greater (mean_of img) t)))] = Ok tt.
Proof.
  intros Himg t. rewrite (process_run _ _ _ _ _ Himg). cbn zeta.
  destruct (checktype _ _ Input _) as [[]|e1] eqn:Hin.
  2: { split; [by intros (? & ? & ?) | by intros [? _]]. }
  destruct (shape img) as [|d0 [|d1 [|d2 rest]]] eqn:Hs.
  1-3: rewrite (segment_axis_error _ _ _ img) by (done || rewrite Hs; cbn; lia);
       split; [by intros (? & ? & ?) | cbn; intros (_ & ? & _); lia].
  rewrite (segment_run _ _ _ _ _ _ _ _ Himg Hs).
  destruct (decide (rest = [])) as [->|Hrest].
  2: { split; [by intros (? & ? & ?)|]. intros (_ & Hlen & _).
       destruct rest; [done | cbn in Hlen; lia]. }
  rewrite lookup_ext. cbn [lookup list_lookup]. fold t.
  destruct (checktype _ _ Output _) as [[]|e2].
  - split; [done | eauto].
  - split; [by intros (? & ? & ?) | by intros (_ & _ & ?)].
Qed.

End ProcessErrors.

(** Started as a script, the module hands [sys.argv] to [main_module] as a
    single positional argument, so the argument tuple has length one: the
    image processed is always the bundled test image, whatever the command
    line.  A path is used only when [main_module] itself is called with
    exactly two arguments. *)
Theorem script_ignores_command_line checktype imagefile_to_ndarray testfile :
  (forall sys_argv h,
     script_main checktype imagefile_to_ndarray testfile sys_argv h =
     main_module checktype imagefile_to_ndarray testfile [] h) /\
  (forall sys_argv, main_filepath testfile [PyList sys_argv] = PyStr testfile) /\
  (forall prog path, main_filepath testfile [prog; path] = path).
Proof. done. Qed.

(** * Properties of the setup commands *)

(** ** InitCommand.normalize *)

Lemma is_upper_lower_char (c : ascii) : Setup.is_upper (Setup.lower_char c) = false.
Proof. by destruct c as [[] [] [] [] [] [] [] []]. Qed.

Lemma is_separator_lower_char (c : ascii) :
  Setup.is_separator (Setup.lower_char c) = Setup.is_separator c.
Proof. by destruct c as [[] [] [] [] [] [] [] []]. Qed.

Lemma lower_char_fixed (c : ascii) :
  Setup.is_upper c = false -> Setup.lower_char c = c.
Proof. unfold Setup.lower_char. by intros ->. Qed.

(** A string without separators and capitals. *)
Lemma remove_lower_clean (s : string) :
  Forall (fun c => Setup.is_separator c = false /\ Setup.is_upper c = false)
    (list_ascii_of_string (Setup.remove_separators (Setup.lower s))).
Proof.
  induction s as [|c s IH]; [constructor|]. cbn.
  destruct (Setup.is_separator (Setup.lower_char c)) eqn:Hsep; [done|].
  cbn. constructor; [|done]. split; [done | apply is_upper_lower_char].
Qed.

Lemma remove_lower_fixed (s : string) :
  Forall (fun c => Setup.is_separator c = false /\ Setup.is_upper c = false)
    (list_ascii_of_string s) ->
  Setup.remove_separators (Setup.lower s) = s.
Proof.
  induction s as [|c s IH]; [done|]. cbn. intros Hall.
  apply Forall_cons in Hall as [[Hsep Hup] Hall].
  rewrite (lower_char_fixed _ Hup), Hsep. f_equal. by apply IH.
Qed.

(** The normalized name holds no white space, dash or underscore and no
    capital letter, whichever name is given and wherever the command
    runs. *)
Theorem normalize_clean (cwd : string) (name : option string) :
  Forall (fun c => Setup.is_separator c = false /\ Setup.is_upper c = false)
    (list_ascii_of_string (Setup.normalize cwd name)).
Proof. unfold Setup.normalize. apply remove_lower_clean. Qed.

(** Normalizing a normalized name changes nothing, as long as that name
    is not empty; an empty name is replaced by the name of the current
    folder, so a name made of separators only does not stay empty. *)
Theorem normalize_idempotent (cwd : string) (name : option string) :
  (Setup.normalize cwd name <> EmptyString ->
   Setup.normalize cwd (Some (Setup.normalize cwd name))
     = Setup.normalize cwd name) /\
  (Setup.normalize cwd name = EmptyString ->
   Setup.normalize cwd (Some (Setup.normalize cwd name))
     = Setup.normalize cwd None).
Proof.
  split.
  - intros Hne. unfold Setup.normalize in *.
    set (given := match name with
                  | Some (String _ _ as s) => s
                  | _ => Setup.path_tail cwd
                  end) in *.
    pose proof (remove_lower_clean given) as Hclean.
    destruct (Setup.remove_separators (Setup.lower given)) as [|c s] eqn:Hn;
      [done|].
    by apply remove_lower_fixed.
  - by intros ->.
Qed.

(** ** str.replace and InitCommand.adjust_file *)

Lemma prefix_split (old s : string) :
  String.prefix old s = true -> exists b, s = (old ++ b)%string.
Proof.
  revert s. induction old as [|c old IH]; intros s Hp.
  - by exists s.
  - destruct s as [|d s]; [done|]. cbn in Hp.
    destruct (ascii_dec c d) as [->|]; [|done].
    destruct (IH s Hp) as [b ->]. by exists b.
Qed.

Lemma prefix_append (old b : string) : String.prefix old (old ++ b) = true.
Proof.
  induction old as [|c old IH]; [by destruct b|].
  change (String c old ++ b)%string with (String c (old ++ b)%string).
  cbn [String.prefix]. by destruct (ascii_dec c c).
Qed.

Lemma append_assoc (a b c : string) :
  ((a ++ b) ++ c = a ++ (b ++ c))%string.
Proof.
  induction a as [|x a IH]; [done|].
  change (String x ((a ++ b) ++ c) = String x (a ++ b ++ c))%string.
  by rewrite IH.
Qed.

(** The characters of a match just replaced are passed over. *)
Lemma replace_from_skip (old new a b : string) :
  Setup.replace_from old new (String.length a) (a ++ b)
    = Setup.replace_from old new 0 b.
Proof. induction a as [|c a IH]; [by destruct b | exact IH]. Qed.

Lemma replace_from_absent (old new s : string) :
  (forall a b, s <> (a ++ old ++ b)%string) ->
  Setup.replace_from old new 0 s = s.
Proof.
  induction s as [|c s IH]; intros Habs; [done|].
  cbn [Setup.replace_from].
  destruct (String.prefix old (String c s)) eqn:Hp.
  - apply prefix_split in Hp as [b Hb]. by destruct (Habs EmptyString b).
  - f_equal. apply IH. intros a b ->. by apply (Habs (String c a) b).
Qed.

(** A text in which [old] does not occur is returned as it is. *)
Theorem replace_absent (old new s : string) :
  old <> EmptyString ->
  (forall a b, s <> (a ++ old ++ b)%string) ->
  Setup.replace old new s = s.
Proof.
  intros Hne Habs. unfold Setup.replace.
  destruct old; [done|]. by apply replace_from_absent.
Qed.

(** The leftmost occurrence of [old] is replaced by [new], what is before
    it is kept, and the replacement goes on behind it: occurrences that
    overlap the one replaced are not seen, and what was inserted is not
    scanned again. *)
Theorem replace_leftmost (old new a b : string) :
  old <> EmptyString ->
  (forall a1 a2, a = (a1 ++ a2)%string -> a2 <> EmptyString ->
     String.prefix old (a2 ++ old ++ b) = false) ->
  Setup.replace old new (a ++ old ++ b)
    = (a ++ new ++ Setup.replace old new b)%string.
Proof.
  intros Hne Hleft. unfold Setup.replace.
  destruct old as [|o old]; [done|]. clear Hne.
  induction a as [|c a IH].
  - change (Setup.replace_from (String o old) new 0 (String o (old ++ b)) =
            new ++ Setup.replace_from (String o old) new 0 b)%string.
    cbn [Setup.replace_from].
    change (String o (old ++ b)%string) with (String o old ++ b)%string.
    rewrite prefix_append. f_equal.
    cbn [String.length]. rewrite Nat.sub_succ, Nat.sub_0_r.
    apply replace_from_skip.
  - change (Setup.replace_from (String o old) new 0
              (String c (a ++ String o old ++ b)) =
            String c (a ++ new ++ Setup.replace_from (String o old) new 0 b))%string.
    cbn [Setup.replace_from].
    change (String c (a ++ String o old ++ b)%string)
      with (String c a ++ String o old ++ b)%string.
    rewrite (Hleft EmptyString (String c a)) by done.
    f_equal. apply IH. intros a1 a2 -> Ha2.
    by apply (Hleft (String c a1) a2).
Qed.

(** A text that mentions neither the template repository nor the template
    package passes the two replacements unchanged. *)
Lemma adjust_text_unrelated (cwd pkg_name text : string) :
  (forall a b, text <> (a ++ "analytics-module-template" ++ b)%string) ->
  (forall a b, text <> (a ++ "amod_template" ++ b)%string) ->
  Setup.adjust_text cwd pkg_name text = text.
Proof.
  intros Hrepo Hpkg. unfold Setup.adjust_text, Setup.replace. cbn.
  rewrite (replace_from_absent "analytics-module-template") by done.
  by apply replace_from_absent.
Qed.

(** A text without carriage return is read as it is. *)
Lemma universal_newlines_fixed (s : string) :
  (forall a b, s <> (a ++ String "013" b)%string) ->
  Setup.universal_newlines s = s.
Proof.
  induction s as [|c s IH]; intros Hcr; [done|].
  cbn [Setup.universal_newlines].
  destruct (Ascii.eqb_spec c "013") as [->|_].
  - by destruct (Hcr EmptyString s).
  - f_equal. apply IH. intros a b ->. by apply (Hcr (String c a) b).
Qed.

(** The line ends of a file are rewritten even if no name occurs in it:
    a carriage return and line feed come back as a line feed. *)
Example adjust_file_line_ends :
  Setup.adjust_file "/home/user/My-Repo" "amod_myrepo"
    (Setup.Regular (String "a" (String "013" (String "010" "b"))))
    = (Setup.Returned tt, Setup.Regular (String "a" (String "010" "b"))).
Proof. reflexivity. Qed.

(** A text file that holds no carriage return and mentions neither the
    template repository nor the template package is written back with the
    content it had. *)
Theorem adjust_file_unrelated (cwd pkg_name content : string) :
  (forall a b, content <> (a ++ String "013" b)%string) ->
  (forall a b, content <> (a ++ "analytics-module-template" ++ b)%string) ->
  (forall a b, content <> (a ++ "amod_template" ++ b)%string) ->
  Setup.adjust_file cwd pkg_name (Setup.Regular content)
    = (Setup.Returned tt, Setup.Regular content).
Proof.
  intros Hcr Hrepo Hpkg. unfold Setup.adjust_file.
  rewrite (universal_newlines_fixed content Hcr).
  by rewrite (adjust_text_unrelated cwd pkg_name content Hrepo Hpkg).
Qed.

(** ** find_spec_folder *)

(** [find_spec_folder] returns the first entry of the listing that is a
    directory holding a regular file 'specification.py', and raises
    IndexError exactly when the listing has no such entry. *)
Theorem find_spec_folder_first (es : list (string * Setup.node)) :
  (forall f,
     Setup.find_spec_folder es = Setup.Returned f <->
     exists pre x post,
       es = pre ++ (f, x) :: post /\
       Setup.has_specification x = true /\
       Forall (fun e => Setup.has_specification e.2 = false) pre) /\
  (Setup.find_spec_folder es = Setup.Raised Setup.IndexError <->
   Forall (fun e => Setup.has_specification e.2 = false) es).
Proof.
  unfold Setup.find_spec_folder.
  induction es as [|[n x] es [IHok IHerr]]; split.
  - intros f. split; [done|]. intros (pre & x & post & Hes & _).
    by destruct pre.
  - done.
  - intros f. cbn. destruct (Setup.has_specification x) eqn:Hx.
    + split.
      * intros [= ->]. by exists [], x, es.
      * intros ([|[n' x'] pre] & y & post & Hes & Hy & Hpre).
        -- by injection Hes as -> -> ->.
        -- injection Hes as -> -> ->. apply Forall_cons in Hpre as [Hx' _].
           cbn in Hx'. congruence.
    + rewrite IHok. split.
      * intros (pre & y & post & -> & Hy & Hpre).
        exists ((n, x) :: pre), y, post. split; [done|]. split; [done|].
        by constructor.
      * intros ([|[n' x'] pre] & y & post & Hes & Hy & Hpre).
        -- injection Hes as -> -> ->. congruence.
        -- injection Hes as -> -> ->. apply Forall_cons in Hpre as [_ Hpre].
           by exists pre, y, post.
  - cbn. destruct (Setup.has_specification x) eqn:Hx.
    + split; [done|]. intros Hall. apply Forall_cons in Hall as [Hx' _].
      cbn in Hx'. congruence.
    + rewrite IHerr. split; [by constructor|].
      intros Hall. by apply Forall_cons in Hall as [_ ?].
Qed.

(** ** CleanCommand.run *)

Section Clean.

Import Setup.

Lemma filter_filter {A} (p q : A -> bool) (l : list A) :
  List.filter p (List.filter q l) = List.filter (fun x => q x && p x) l.
Proof.
  induction l as [|x l IH]; [done|]. cbn.
  destruct (q x); cbn; [destruct (p x)|]; by rewrite IH.
Qed.

Lemma filter_all {A} (p : A -> bool) (l : list A) :
  (forall x, x ∈ l -> p x = true) -> List.filter p l = l.
Proof.
  induction l as [|x l IH]; intros Hp; [done|]. cbn.
  rewrite (Hp x) by left. f_equal. apply IH. intros y Hy. apply Hp. by right.
Qed.

Lemma lookup_entry_Some (n : string) (x : node) (es : list (string * node)) :
  lookup_entry n es = Some x -> (n, x) ∈ es.
Proof.
  induction es as [|[n' x'] es IH]; [done|]. cbn.
  destruct (decide (n' = n)) as [->|].
  - intros [= ->]. left.
  - intros H. right. by apply IH.
Qed.

Lemma lookup_entry_None (n : string) (es : list (string * node)) :
  lookup_entry n es = None <-> n ∉ es.*1.
Proof.
  induction es as [|[n' x'] es IH]; cbn.
  - split; [intros _; apply not_elem_of_nil | done].
  - rewrite not_elem_of_cons. destruct (decide (n' = n)) as [->|Hne].
    + split; [done | by intros [? _]].
    + rewrite IH. split; [by intros ? | by intros [_ ?]].
Qed.

Lemma lookup_entry_NoDup (n : string) (x : node) (es : list (string * node)) :
  NoDup es.*1 -> (n, x) ∈ es -> lookup_entry n es = Some x.
Proof.
  induction es as [|[n' x'] es IH]; intros Hnd Hin.
  - by apply elem_of_nil in Hin.
  - cbn in *. apply NoDup_cons in Hnd as [Hn' Hnd].
    apply elem_of_cons in Hin as [[= -> ->]|Hin].
    + by rewrite decide_True.
    + rewrite decide_False; [by apply IH|].
      intros ->. apply Hn'. apply list_elem_of_fmap. by exists (n, x).
Qed.

Lemma lookup_remove_ne (n name : string) (es : list (string * node)) :
  n <> name -> lookup_entry n (remove_entry name es) = lookup_entry n es.
Proof.
  intros Hne. unfold remove_entry.
  induction es as [|[n' x'] es IH]; [done|]. cbn.
  destruct (bool_decide_reflect (n' = name)) as [->|Hn']; cbn.
  - by rewrite decide_False.
  - by rewrite IH.
Qed.

Lemma remove_entry_absent (name : string) (es : list (string * node)) :
  lookup_entry name es = None -> remove_entry name es = es.
Proof.
  intros Hnone. apply filter_all. intros [n x] Hin. cbn.
  apply negb_true_iff, bool_decide_eq_false. intros ->.
  apply lookup_entry_None in Hnone. apply Hnone.
  apply list_elem_of_fmap. by exists (name, x).
Qed.

Lemma NoDup_filter_fst (p : string * node -> bool) (es : list (string * node)) :
  NoDup es.*1 -> NoDup (List.filter p es).*1.
Proof.
  induction es as [|[n x] es IH]; [done|]. cbn. intros Hnd.
  apply NoDup_cons in Hnd as [Hn Hnd].
  destruct (p (n, x)); cbn; [|by apply IH].
  apply NoDup_cons. split; [|by apply IH].
  intros Hin. apply Hn. apply list_elem_of_fmap in Hin as ([n' x'] & -> & Hin).
  apply list_elem_of_In, List.filter_In in Hin as [Hin _].
  apply list_elem_of_fmap. exists (n', x'). split; [done|].
  by apply list_elem_of_In.
Qed.

Lemma NoDup_remove_entry (name : string) (es : list (string * node)) :
  NoDup es.*1 -> NoDup (remove_entry name es).*1.
Proof.
  unfold remove_entry.
  induction es as [|[n x] es IH]; [done|]. cbn. intros Hnd.
  apply NoDup_cons in Hnd as [Hn Hnd].
  destruct (bool_decide (n = name)); cbn; [by apply IH|].
  apply NoDup_cons. split; [|by apply IH].
  intros Hin. apply Hn. apply list_elem_of_fmap in Hin as ([n' x'] & -> & Hin).
  apply list_elem_of_In, List.filter_In in Hin as [Hin _].
  apply list_elem_of_fmap. exists (n', x'). split; [done|].
  by apply list_elem_of_In.
Qed.

(** Deleting a directory, and trying to delete a regular file. *)
Lemma delete_dir (name : string) (s : os_state) c :
  lookup_entry name (entries s) = Some (Dir c) ->
  delete name s =
    (Returned tt,
     {| entries := remove_entry name (entries s);
        stdout := stdout s ++ [("deleting: " ++ name)%string] |}).
Proof. intros H. unfold delete, cmd_bind, print, rmtree. cbn. by rewrite H. Qed.

Lemma delete_file (name : string) (s : os_state) :
  lookup_entry name (entries s) = Some File ->
  delete name s =
    (Raised NotADirectoryError,
     {| entries := entries s;
        stdout := stdout s ++ [("deleting: " ++ name)%string] |}).
Proof. intros H. unfold delete, cmd_bind, print, rmtree. cbn. by rewrite H. Qed.

Lemma folder_step_ok (f : string) (s : os_state) :
  lookup_entry f (entries s) <> Some File ->
  (if exists_ f s then delete f s else (Returned tt, s)) =
    (Returned tt,
     {| entries := remove_entry f (entries s);
        stdout := stdout s ++
          ((fun n => ("deleting: " ++ n)%string)
             <$> (if exists_ f s then [f] else [])) |}).
Proof.
  intros Hnf. unfold exists_.
  destruct (lookup_entry f (entries s)) as [[|c]|] eqn:Hl; [done| |].
  - by rewrite (delete_dir _ _ c).
  - rewrite remove_entry_absent by done. cbn. rewrite app_nil_r. by destruct s.
Qed.

(** The names of the listing that the pattern matches. *)
Lemma elem_of_glob (n : string) (s : os_state) :
  n ∈ glob_egg_info s <->
  n ∈ (entries s).*1 /\ negb (is_hidden n) && ends_with "egg-info" n = true.
Proof.
  unfold glob_egg_info. rewrite !list_elem_of_In, List.filter_In. done.
Qed.

Lemma glob_remove (f : string) (es : list (string * node)) out out' :
  negb (is_hidden f) && ends_with "egg-info" f = false ->
  glob_egg_info {| entries := remove_entry f es; stdout := out |} =
  glob_egg_info {| entries := es; stdout := out' |}.
Proof.
  intros Hf. unfold glob_egg_info, remove_entry. cbn [entries].
  induction es as [|[n x] es IH]; [done|]. cbn.
  destruct (bool_decide_reflect (n = f)) as [->|Hn]; cbn.
  - by rewrite Hf.
  - by rewrite IH.
Qed.

Lemma eggs_loop_ok (l : list string) (s : os_state) :
  NoDup l ->
  (forall n, n ∈ l -> exists c, lookup_entry n (entries s) = Some (Dir c)) ->
  for_each l delete s =
    (Returned tt,
     {| entries := List.filter (fun e => negb (bool_decide (e.1 ∈ l))) (entries s);
        stdout := stdout s ++ ((fun n => ("deleting: " ++ n)%string) <$> l) |}).
Proof.
  revert s. induction l as [|n l IH]; intros s Hnd Hdirs.
  - cbn. rewrite app_nil_r, filter_all; [by destruct s|].
    intros e _. apply negb_true_iff, bool_decide_eq_false, not_elem_of_nil.
  - apply NoDup_cons in Hnd as [Hn Hnd].
    destruct (Hdirs n) as [c Hc]; [left|].
    cbn [for_each]. unfold cmd_bind. rewrite (delete_dir _ _ c Hc).
    rewrite IH; [|done|].
    + cbn [entries stdout]. unfold remove_entry.
      rewrite filter_filter, <- app_assoc. do 2 f_equal.
      apply List.filter_ext. intros [n' x']. cbn.
      destruct (bool_decide_reflect (n' = n)) as [->|Hn'].
      * symmetry. apply negb_false_iff, bool_decide_eq_true. left.
      * cbn. f_equal. apply bool_decide_ext. rewrite elem_of_cons.
        split; [by right | by intros [?|?]].
    + intros n' Hn'. cbn [entries]. rewrite lookup_remove_ne.
      * apply Hdirs. by right.
      * by intros ->.
Qed.

Lemma eggs_loop_raises (l : list string) (s : os_state) :
  NoDup l ->
  (forall n, n ∈ l -> is_Some (lookup_entry n (entries s))) ->
  (exists n, n ∈ l /\ lookup_entry n (entries s) = Some File) ->
  (for_each l delete s).1 = Raised NotADirectoryError.
Proof.
  revert s. induction l as [|n l IH]; intros s Hnd Hall (m & Hm & Hfile).
  - by apply elem_of_nil in Hm.
  - apply NoDup_cons in Hnd as [Hn Hnd].
    cbn [for_each]. unfold cmd_bind.
    destruct (Hall n) as [[|c] Hx]; [left| |].
    + by rewrite (delete_file _ _ Hx).
    + rewrite (delete_dir _ _ c Hx).
      apply elem_of_cons in Hm as [->|Hm]; [congruence|].
      apply IH; [done| |].
      * intros n' Hn'. cbn [entries]. rewrite lookup_remove_ne.
        -- apply Hall. by right.
        -- by intros ->.
      * exists m. split; [done|]. cbn [entries]. rewrite lookup_remove_ne; [done|].
        by intros ->.
Qed.

(** The run of the command when no regular file is in its way. *)
Lemma run_clean_ok (s : os_state) :
  NoDup (entries s).*1 ->
  (forall n, is_target n = true -> lookup_entry n (entries s) <> Some File) ->
  run_clean s =
    (Returned tt,
     {| entries := List.filter (fun e => negb (is_target e.1)) (entries s);
        stdout := stdout s ++
          ((fun n => ("deleting: " ++ n)%string)
             <$> ((if exists_ "build" s then ["build"] else []) ++
                  (if exists_ "dist" s then ["dist"] else []) ++
                  glob_egg_info s)) |}).
Proof.
  intros Hnd Hfiles. destruct s as [es out]. cbn [entries stdout] in *.
  unfold run_clean. cbn [for_each]. unfold cmd_bind at 1 2 3.
  rewrite folder_step_ok by (by apply Hfiles).
  rewrite folder_step_ok
    by (cbn [entries]; rewrite lookup_remove_ne by done; by apply Hfiles).
  cbn [entries stdout].
  set (s2 := {| entries := remove_entry "dist" (remove_entry "build" es);
                stdout := _ |}).
  assert (Hglob : glob_egg_info s2 =
                  glob_egg_info {| entries := es; stdout := out |}).
  { unfold s2. by rewrite (glob_remove "dist" _ _ out), (glob_remove "build" _ _ out). }
  rewrite Hglob, eggs_loop_ok.
  - unfold s2. cbn [entries stdout]. unfold exists_.
    cbn [entries]. rewrite lookup_remove_ne by done. unfold remove_entry.
    rewrite !filter_filter, <- !app_assoc, !fmap_app. do 2 f_equal.
    apply List.filter_ext_in. intros [n x] Hin. cbn [fst]. unfold is_target.
    rewrite !negb_orb, <- andb_assoc. do 2 f_equal.
    destruct (negb (is_hidden n) && ends_with "egg-info" n) eqn:Hegg.
    + apply negb_false_iff, bool_decide_eq_true, elem_of_glob. split; [|done].
      cbn. apply list_elem_of_fmap. exists (n, x). split; [done|].
      by apply list_elem_of_In.
    + apply negb_true_iff, bool_decide_eq_false. rewrite elem_of_glob.
      intros [_ ?]. congruence.
  - unfold glob_egg_info.
    by apply NoDup_ListNoDup, List.NoDup_filter, NoDup_ListNoDup.
  - intros n Hn. apply elem_of_glob in Hn as [Hin Hegg]. cbn [entries] in Hin.
    apply list_elem_of_fmap in Hin as ([n' x] & -> & Hin). cbn [fst] in *.
    assert (Htarget : is_target n' = true).
    { unfold is_target. rewrite Hegg. by rewrite orb_true_r. }
    pose proof (lookup_entry_NoDup _ _ _ Hnd Hin) as Hl.
    destruct x as [|c]; [by destruct (Hfiles n' Htarget)|].
    exists c. unfold s2. cbn [entries].
    rewrite !lookup_remove_ne; [done| |]; by intros ->.
Qed.

(** A regular file among the targets makes the command raise. *)
Lemma run_clean_file (s : os_state) (n : string) :
  NoDup (entries s).*1 ->
  is_target n = true -> lookup_entry n (entries s) = Some File ->
  (run_clean s).1 = Raised NotADirectoryError.
Proof.
  intros Hnd Htarget Hfile. destruct s as [es out]. cbn [entries] in *.
  unfold run_clean. cbn [for_each]. unfold cmd_bind at 1 2 3.
  assert (Hcases : forall f, lookup_entry f es = Some File \/
                              lookup_entry f es <> Some File).
  { intros f. destruct (lookup_entry f es) as [[|c]|]; [left|right|right]; done. }
  destruct (Hcases "build") as [Hb|Hb].
  { unfold exists_. cbn [entries]. rewrite Hb. by rewrite delete_file. }
  rewrite folder_step_ok by done.
  destruct (Hcases "dist") as [Hd|Hd].
  { unfold exists_. cbn [entries]. rewrite lookup_remove_ne, Hd by done.
    rewrite delete_file; [done|]. cbn [entries]. by rewrite lookup_remove_ne. }
  rewrite folder_step_ok by (cbn [entries]; by rewrite lookup_remove_ne).
  cbn [entries stdout].
  set (s2 := {| entries := remove_entry "dist" (remove_entry "build" es);
                stdout := _ |}).
  assert (Hegg : negb (is_hidden n) && ends_with "egg-info" n = true).
  { unfold is_target in Htarget.
    destruct (bool_decide_reflect (n = "build")) as [->|_]; [congruence|].
    destruct (bool_decide_reflect (n = "dist")) as [->|_]; [congruence|].
    done. }
  assert (Hne : n <> "build" /\ n <> "dist").
  { split; intros ->; done. }
  assert (Hkeep : forall m, negb (is_hidden m) && ends_with "egg-info" m = true ->
            lookup_entry m (entries s2) = lookup_entry m es).
  { intros m Hm. unfold s2. cbn [entries].
    rewrite !lookup_remove_ne; [done| |]; by intros ->. }
  apply eggs_loop_raises.
  - unfold glob_egg_info.
    apply NoDup_ListNoDup, List.NoDup_filter, NoDup_ListNoDup.
    unfold s2. cbn [entries]. by do 2 apply NoDup_remove_entry.
  - intros m Hm. apply elem_of_glob in Hm as [Hin Hm].
    destruct (lookup_entry m (entries s2)) eqn:Hl; [done|].
    by apply lookup_entry_None in Hl.
  - exists n. split; [|by rewrite Hkeep].
    apply elem_of_glob. split; [|done].
    rewrite <- (Hkeep n Hegg) in Hfile. apply lookup_entry_Some in Hfile.
    apply list_elem_of_fmap. by exists (n, File).
Qed.

Lemma lookup_entry_filter (p : string -> bool) (n : string)
    (es : list (string * node)) :
  lookup_entry n (List.filter (fun e => p e.1) es) =
    if p n then lookup_entry n es else None.
Proof.
  induction es as [|[n' x] es IH]; [by destruct (p n)|].
  cbn [List.filter fst]. destruct (decide (n' = n)) as [->|Hne].
  - destruct (p n) eqn:Hp.
    + cbn. by destruct (decide (n = n)).
    + by rewrite IH, ?Hp.
  - destruct (p n').
    + cbn. destruct (decide (n' = n)); [done | exact IH].
    + rewrite IH. cbn. by destruct (decide (n' = n)).
Qed.

Lemma filter_none {A} (p : A -> bool) (l : list A) :
  (forall x, x ∈ l -> p x = false) -> List.filter p l = [].
Proof.
  induction l as [|x l IH]; intros Hp; [done|]. cbn.
  rewrite (Hp x) by left. apply IH. intros y Hy. apply Hp. by right.
Qed.

(** Either a regular file has the name of a target, or none has. *)
Lemma file_target_cases (es : list (string * node)) :
  NoDup es.*1 ->
  (exists n, is_target n = true /\ lookup_entry n es = Some File) \/
  (forall n, is_target n = true -> lookup_entry n es <> Some File).
Proof.
  induction es as [|[n x] es IH]; intros Hnd.
  { right. by intros n _. }
  cbn in Hnd. apply NoDup_cons in Hnd as [Hn Hnd].
  destruct (IH Hnd) as [(m & Hm & Hl)|Hno].
  - left. exists m. split; [done|]. cbn. rewrite decide_False; [done|].
    intros ->. apply Hn. apply lookup_entry_Some in Hl.
    apply list_elem_of_fmap. by exists (m, File).
  - destruct (is_target n) eqn:Htn, x as [|c].
    + left. exists n. split; [done|]. cbn. by rewrite decide_True.
    + right. intros m Hm. cbn. destruct (decide (n = m)); [done | by apply Hno].
    + right. intros m Hm. cbn.
      destruct (decide (n = m)) as [->|]; [congruence | by apply Hno].
    + right. intros m Hm. cbn. destruct (decide (n = m)); [done | by apply Hno].
Qed.

(** What is not a target is never touched, even by a run that raises. *)
Lemma delete_frame (m n : string) (s : os_state) :
  n <> m ->
  lookup_entry n (entries (delete m s).2) = lookup_entry n (entries s).
Proof.
  intros Hne. unfold delete, cmd_bind, print, rmtree. cbn.
  destruct (lookup_entry m (entries s)) as [[|c]|]; cbn; [done| |done].
  by apply lookup_remove_ne.
Qed.

Lemma for_each_delete_frame (l : list string) (n : string) (s : os_state) :
  n ∉ l ->
  lookup_entry n (entries (for_each l delete s).2) = lookup_entry n (entries s).
Proof.
  revert s. induction l as [|m l IH]; intros s Hn; [done|].
  apply not_elem_of_cons in Hn as [Hne Hn].
  cbn [for_each]. unfold cmd_bind.
  pose proof (delete_frame m n s Hne) as Hd.
  destruct (delete m s) as [[[]|e] s1]; cbn in Hd |- *; [|done].
  by rewrite IH.
Qed.

(** Without a regular file in its way, the command returns; afterwards no
    target is left, every other entry is as it was, and one line has
    been printed for each entry deleted: 'build', 'dist', then the
    egg-info directories in the order of the listing. *)
Theorem run_clean_removes_targets (s : os_state) :
  NoDup (entries s).*1 ->
  (forall n, is_target n = true -> lookup_entry n (entries s) <> Some File) ->
  exists s',
    run_clean s = (Returned tt, s') /\
    (forall n, lookup_entry n (entries s') =
               if is_target n then None else lookup_entry n (entries s)) /\
    stdout s' = stdout s ++
      ((fun n => ("deleting: " ++ n)%string)
         <$> ((if exists_ "build" s then ["build"] else []) ++
              (if exists_ "dist" s then ["dist"] else []) ++
              glob_egg_info s)).
Proof.
  intros Hnd Hfiles. eexists. split; [by apply run_clean_ok|].
  split; [|done]. intros n. cbn [entries].
  rewrite (lookup_entry_filter (fun n => negb (is_target n))).
  by destruct (is_target n).
Qed.

(** The command raises exactly when a regular file has the name of a
    target -- 'build', 'dist', or a visible name ending in 'egg-info' --
    and the error is then NotADirectoryError; otherwise it returns. *)
Theorem run_clean_raises_iff (s : os_state) :
  NoDup (entries s).*1 ->
  ((run_clean s).1 = Raised NotADirectoryError <->
   exists n, is_target n = true /\ lookup_entry n (entries s) = Some File) /\
  ((run_clean s).1 = Returned tt <->
   forall n, is_target n = true -> lookup_entry n (entries s) <> Some File).
Proof.
  intros Hnd. destruct (file_target_cases _ Hnd) as [(n & Hn & Hl)|Hno].
  - rewrite (run_clean_file s n Hnd Hn Hl). split.
    + split; [by exists n | done].
    + split; [done|]. intros Hno. by destruct (Hno n Hn).
  - rewrite (run_clean_ok s Hnd Hno). split.
    + split; [done|]. intros (n & Hn & Hl). by destruct (Hno n Hn).
    + done.
Qed.

(** Cleaning a second time changes nothing and prints nothing. *)
Theorem run_clean_idempotent (s s' : os_state) :
  NoDup (entries s).*1 ->
  run_clean s = (Returned tt, s') ->
  run_clean s' = (Returned tt, s').
Proof.
  intros Hnd Hrun.
  destruct (file_target_cases _ Hnd) as [(n & Hn & Hl)|Hno].
  { pose proof (run_clean_file s n Hnd Hn Hl) as Hr. by rewrite Hrun in Hr. }
  rewrite (run_clean_ok s Hnd Hno) in Hrun. injection Hrun as <-.
  set (kept := List.filter (fun e => negb (is_target e.1)) (entries s)).
  assert (Hkept : forall e, e ∈ kept -> is_target e.1 = false).
  { intros e He. apply list_elem_of_In, List.filter_In in He as [_ He].
    by apply negb_true_iff. }
  assert (Hgone : forall n, is_target n = true -> lookup_entry n kept = None).
  { intros n Hn. unfold kept.
    rewrite (lookup_entry_filter (fun n => negb (is_target n))). by rewrite Hn. }
  rewrite run_clean_ok; cbn [entries stdout]; fold kept.
  - assert (Hex : forall f o, is_target f = true ->
              exists_ f {| entries := kept; stdout := o |} = false).
    { intros f o Hf. unfold exists_. cbn [entries]. by rewrite Hgone. }
    assert (Hgl : forall o, glob_egg_info {| entries := kept; stdout := o |} = []).
    { intros o. unfold glob_egg_info. cbn [entries]. apply filter_none.
      intros n Hn. apply list_elem_of_fmap in Hn as (e & -> & He).
      pose proof (Hkept e He) as Ht. unfold is_target in Ht.
      by apply orb_false_iff in Ht as [_ ?]. }
    rewrite (Hex "build"), (Hex "dist"), Hgl by done.
    rewrite (filter_all (fun e => negb (is_target e.1)) kept)
      by (intros e He; by rewrite (Hkept e He)).
    cbn [app fmap list_fmap]. by rewrite app_nil_r.
  - unfold kept. by apply NoDup_filter_fst.
  - intros n Hn. by rewrite Hgone.
Qed.

(** An entry that is not a target is never touched, whether the command
    returns or raises. *)
Theorem run_clean_keeps_other_entries (s : os_state) (n : string) :
  is_target n = false ->
  lookup_entry n (entries (run_clean s).2) = lookup_entry n (entries s).
Proof.
  intros Hn.
  assert (Hparts : n <> "build" /\ n <> "dist" /\
                   negb (is_hidden n) && ends_with "egg-info" n = false).
  { unfold is_target in Hn. apply orb_false_iff in Hn as [Hn Hegg].
    apply orb_false_iff in Hn as [Hb Hd].
    by apply bool_decide_eq_false in Hb, Hd. }
  destruct Hparts as (Hb & Hd & Hegg).
  assert (Hstep : forall f t, n <> f ->
            lookup_entry n
              (entries (if exists_ f t then delete f t else (Returned tt, t)).2)
            = lookup_entry n (entries t)).
  { intros f t Hne. destruct (exists_ f t); [by apply delete_frame | done]. }
  unfold run_clean. cbn [for_each]. unfold cmd_bind at 1 2 3.
  pose proof (Hstep "build" s Hb) as H1.
  destruct (if exists_ "build" s then _ else _) as [[[]|e1] s1];
    cbn in H1 |- *; [|done].
  pose proof (Hstep "dist" s1 Hd) as H2.
  destruct (if exists_ "dist" s1 then _ else _) as [[[]|e2] s2];
    cbn in H2 |- *; [|congruence].
  rewrite for_each_delete_frame; [congruence|].
  rewrite elem_of_glob. intros [_ ?]. congruence.
Qed.

End Clean.

(** * Concrete runs of the further properties *)

Lemma segment_returns_iff_three_axes_witness :
  (exists m n h', segment 0 (NInt 130) [example_image] = (Ok (m, n), h')) <->
  List.length (shape example_image) = 3.
Proof.
  exact (segment_returns_iff_three_axes [example_image] 0 (NInt 130)
           example_image eq_refl).
Defined.

Lemma segment_rank_errors_witness :
  segment 0 (NInt 130) [example_mask] = (Err AxisError, [example_mask]).
Proof.
  exact (proj1 (segment_rank_errors [example_mask] 0 (NInt 130) example_mask
                  eq_refl) (le_n 3)).
Defined.

Lemma segment_threshold_monotone_witness :
  exists m1 n1 h1 mask1 m2 n2 h2 mask2,
    segment 0 (NInt 130) [example_image] = (Ok (m1, n1), h1) /\
    h1 !! m1 = Some mask1 /\
    segment 0 (NInt 240) [example_image] = (Ok (m2, n2), h2) /\
    h2 !! m2 = Some mask2 /\
    (n2 <= n1)%Z /\
    forall i j, i < 1 -> j < 2 ->
      at2 mask2 i j = Some (Some 255%Q) -> at2 mask1 i j = Some (Some 255%Q).
Proof.
  apply (segment_threshold_monotone [example_image] 0 (NInt 130) (NInt 240)
           example_image 1 2 3 eq_refl eq_refl).
  by vm_compute.
Defined.

Lemma segment_count_bounds_witness :
  exists img hh ww cc mask,
    [example_image] !! 0 = Some img /\ shape img = [hh; ww; cc] /\
    (segment 0 (NInt 130) [example_image]).2 !! 3 = Some mask /\
    (0 <= 1 <= Z.of_nat (hh * ww))%Z /\
    (1 + Z.of_nat (count (is_value 0) (data mask)) = Z.of_nat (hh * ww))%Z.
Proof.
  exact (segment_count_bounds [example_image]
           (segment 0 (NInt 130) [example_image]).2 0 (NInt 130) 3 1 eq_refl).
Defined.

Lemma segment_uint8_all_bright_witness :
  exists (m : loc) (h' : heap) (mask : ndarray),
    segment 0 (NInt (-1)) [example_image] = (Ok (m, Z.of_nat (1 * 2)), h') /\
    h' !! m = Some mask /\
    List.length (data mask) = 1 * 2 /\
    Forall (fun x => x = Some 255%Q) (data mask).
Proof.
  apply (segment_uint8_all_bright [example_image] 0 (NInt (-1)) example_image
           1 2 3 eq_refl eq_refl eq_refl example_image_uint8).
  - lia.
  - by vm_compute.
Defined.

Lemma segment_nan_pixel_dark_witness :
  exists (m : loc) (n : Z) (h' : heap) (mask : ndarray),
    segment 0 (NInt 0)
      [{| dtype_of := float64; shape := [1; 1; 2];
          data := [Some 5%Q; None] |}] = (Ok (m, n), h') /\
    h' !! m = Some mask /\
    at2 mask 0 0 = Some (Some 0%Q).
Proof.
  apply (segment_nan_pixel_dark
           [{| dtype_of := float64; shape := [1; 1; 2];
               data := [Some 5%Q; None] |}] 0 (NInt 0)
           {| dtype_of := float64; shape := [1; 1; 2];
              data := [Some 5%Q; None] |} 1 1 2 0 0 eq_refl eq_refl).
  - lia.
  - lia.
  - right. cbn. right. left.
Defined.

Lemma segment_channel_order_witness :
  exists (m m' : loc) (n : Z) (h1 h2 : heap) (mask : ndarray),
    segment 0 (NInt 130)
      [example_image;
       {| dtype_of := uint8; shape := [1; 2; 3];
          data := (fun z => Some (inject_Z z))
                    <$> [30; 20; 10; 255; 250; 200]%Z |}]
      = (Ok (m, n), h1) /\ h1 !! m = Some mask /\
    segment 1 (NInt 130)
      [example_image;
       {| dtype_of := uint8; shape := [1; 2; 3];
          data := (fun z => Some (inject_Z z))
                    <$> [30; 20; 10; 255; 250; 200]%Z |}]
      = (Ok (m', n), h2) /\ h2 !! m' = Some mask.
Proof.
  apply (segment_channel_order
           [example_image;
            {| dtype_of := uint8; shape := [1; 2; 3];
               data := (fun z => Some (inject_Z z))
                         <$> [30; 20; 10; 255; 250; 200]%Z |}]
           0 1 (NInt 130) example_image
           {| dtype_of := uint8; shape := [1; 2; 3];
              data := (fun z => Some (inject_Z z))
                        <$> [30; 20; 10; 255; 250; 200]%Z |}
           1 2 3 eq_refl eq_refl eq_refl eq_refl example_image_uint8).
  intros i j Hi Hj. destruct i as [|i]; [|lia].
  destruct j as [|[|j]]; [| |lia].
  - exact (reverse_Permutation [Some 30%Q; Some 20%Q; Some 10%Q]).
  - exact (reverse_Permutation [Some 255%Q; Some 250%Q; Some 200%Q]).
Defined.

Lemma process_segment_error_witness :
  process Validator.validate 0 (NInt 130)
    (Detector_init
       [{| dtype_of := uint8; shape := [1; 1; 2; 3];
           data := data example_image |}]) =
    (Err IndexError,
     {| arrays :=
          (segment 0 (NInt 130)
             [{| dtype_of := uint8; shape := [1; 1; 2; 3];
                 data := data example_image |}]).2;
        self_spec := SPEC;
        calls :=
          [CallChecktype "process" Input
             [VArray {| dtype_of := uint8; shape := [1; 1; 2; 3];
                        data := data example_image |};
              VNumeric (NInt 130)];
           CallSegment 0 (NInt 130)] |}).
Proof.
  exact (process_segment_error Validator.validate
           (Detector_init
              [{| dtype_of := uint8; shape := [1; 1; 2; 3];
                  data := data example_image |}])
           0 (NInt 130)
           {| dtype_of := uint8; shape := [1; 1; 2; 3];
              data := data example_image |}
           IndexError _ eq_refl eq_refl eq_refl).
Defined.

Lemma process_output_rejected_witness :
  exists w',
    process (fun _ _ d _ =>
               match d with
               | Input => Ok tt
               | Output => Err (UnknownMethod "process")
               end)
      0 (NInt 130) (Detector_init [example_image])
      = (Err (UnknownMethod "process"), w') /\
    arrays w' !! 3 = Some (mask_of example_image 130) /\
    calls w' =
      [CallChecktype "process" Input
         [VArray example_image; VNumeric (NInt 130)];
       CallSegment 0 (NInt 130);
       CallChecktype "process" Output
         [VArray (mask_of example_image 130);
          VNumeric (NInt (sum_bool (greater (mean_of example_image) 130)))]].
Proof.
  exact (process_output_rejected
           (fun _ _ d _ =>
              match d with
              | Input => Ok tt
              | Output => Err (UnknownMethod "process")
              end)
           (Detector_init [example_image]) 0 (NInt 130) example_image 1 2 3
           (UnknownMethod "process") eq_refl eq_refl eq_refl eq_refl).
Defined.

Lemma process_returns_iff_witness :
  (exists r w',
     process Validator.validate 0 (NInt 130) (Detector_init [example_image])
       = (Ok r, w')) <->
  Validator.validate SPEC "process" Input
    [VArray example_image; VNumeric (NInt 130)] = Ok tt /\
  List.length (shape example_image) = 3 /\
  Validator.validate SPEC "process" Output
    [VArray (mask_of example_image 130);
     VNumeric (NInt (sum_bool (greater (mean_of example_image) 130)))] = Ok tt.
Proof.
  exact (process_returns_iff Validator.validate
           (Detector_init [example_image]) 0 (NInt 130) example_image eq_refl).
Defined.

Lemma normalize_idempotent_witness :
  Setup.normalize "/home/user/My-Repo"
    (Some (Setup.normalize "/home/user/My-Repo" (Some "Bright Pixel_Seg-2")))
  = Setup.normalize "/home/user/My-Repo" (Some "Bright Pixel_Seg-2").
Proof.
  apply (proj1 (normalize_idempotent "/home/user/My-Repo"
                  (Some "Bright Pixel_Seg-2"))).
  by vm_compute.
Defined.

Lemma replace_absent_witness : Setup.replace "ab" "X" "c" = "c".
Proof.
  apply (replace_absent "ab" "X" "c"); [done|].
  intros [|x [|y a]] b H; cbn in H; discriminate H.
Defined.

Lemma replace_leftmost_witness :
  Setup.replace "ab" "X" ("c" ++ "ab" ++ "ab")
    = ("c" ++ "X" ++ Setup.replace "ab" "X" "ab")%string.
Proof.
  apply (replace_leftmost "ab" "X" "c" "ab"); [done|].
  intros [|x a1] a2 H Hne.
  - change (String "c" EmptyString = a2) in H. by rewrite <- H.
  - change (String "c" EmptyString = String x (a1 ++ a2)%string) in H.
    injection H as _ H. destruct a1 as [|y a1]; [|discriminate H].
    change (EmptyString = a2) in H. by destruct Hne.
Defined.

Lemma adjust_file_unrelated_witness :
  Setup.adjust_file "/home/user/My-Repo" "amod_myrepo" (Setup.Regular "x")
    = (Setup.Returned tt, Setup.Regular "x").
Proof.
  apply (adjust_file_unrelated "/home/user/My-Repo" "amod_myrepo" "x");
    intros [|x [|y a]] b H; cbn in H; discriminate H.
Defined.

Lemma find_spec_folder_first_witness :
  Setup.find_spec_folder
    [("build", Setup.Dir []); ("specification.py", Setup.File);
     ("amod_template",
      Setup.Dir [("module.py", Setup.File); ("specification.py", Setup.File)])]
  = Setup.Returned "amod_template".
Proof.
  apply (proj1 (find_spec_folder_first _)).
  exists [("build", Setup.Dir []); ("specification.py", Setup.File)],
    (Setup.Dir [("module.py", Setup.File); ("specification.py", Setup.File)]),
    [].
  split; [done|]. split; [done|]. by repeat constructor.
Defined.

Lemma run_clean_removes_targets_witness :
  exists s',
    Setup.run_clean
      {| Setup.entries :=
           [("build", Setup.Dir []); ("src", Setup.Dir []);
            ("x.egg-info", Setup.Dir [("PKG-INFO", Setup.File)])];
         Setup.stdout := [] |} = (Setup.Returned tt, s') /\
    (forall n, Setup.lookup_entry n (Setup.entries s') =
               if Setup.is_target n then None
               else Setup.lookup_entry n
                      [("build", Setup.Dir []); ("src", Setup.Dir []);
                       ("x.egg-info", Setup.Dir [("PKG-INFO", Setup.File)])]) /\
    Setup.stdout s' = ["deleting: build"; "deleting: x.egg-info"].
Proof.
  apply (run_clean_removes_targets
           {| Setup.entries :=
                [("build", Setup.Dir []); ("src", Setup.Dir []);
                 ("x.egg-info", Setup.Dir [("PKG-INFO", Setup.File)])];
              Setup.stdout := [] |}).
  - apply (bool_decide_unpack _). by vm_compute.
  - intros n _. cbn. repeat case_decide; done.
Defined.

Lemma run_clean_raises_iff_witness :
  (Setup.run_clean
     {| Setup.entries := [("build", Setup.Dir []); ("dist", Setup.File)];
        Setup.stdout := [] |}).1 = Setup.Raised Setup.NotADirectoryError.
Proof.
  apply (proj1 (run_clean_raises_iff
           {| Setup.entries := [("build", Setup.Dir []); ("dist", Setup.File)];
              Setup.stdout := [] |}
           ltac:(apply (bool_decide_unpack _); by vm_compute))).
  by exists "dist".
Defined.

Lemma run_clean_idempotent_witness :
  Setup.run_clean
    {| Setup.entries := [("src", Setup.Dir [])];
       Setup.stdout := ["deleting: build"] |}
  = (Setup.Returned tt,
     {| Setup.entries := [("src", Setup.Dir [])];
        Setup.stdout := ["deleting: build"] |}).
Proof.
  apply (run_clean_idempotent
           {| Setup.entries := [("build", Setup.Dir []); ("src", Setup.Dir [])];
              Setup.stdout := [] |}).
  - apply (bool_decide_unpack _). by vm_compute.
  - reflexivity.
Defined.

Lemma run_clean_keeps_other_entries_witness :
  Setup.lookup_entry "src"
    (Setup.entries
       (Setup.run_clean
          {| Setup.entries := [("build", Setup.File); ("src", Setup.Dir [])];
             Setup.stdout := [] |}).2)
  = Some (Setup.Dir []).
Proof.
  exact (run_clean_keeps_other_entries
           {| Setup.entries := [("build", Setup.File); ("src", Setup.Dir [])];
              Setup.stdout := [] |} "src" eq_refl).
Defined.
